(** * Harper AI sales engine: the voice-AI gateway

    A shallow embedding of the voice-AI service of the repository:

    - [services/voice-ai/src/routes/index.ts]: the Express router with the
      conversation, webhook and token handlers;
    - the service entry point, which mounts the body parsers and the
      router and holds the socket.io connection handler;
    - [utils/logger]: the winston logger, seen here as an append-only log;
    - [scripts/setup.js]: the setup script, over a file system, a shell
      and the answers typed at its two questions.

    JavaScript values are an inductive type, a handler is a computation in
    a small state-and-exception monad over the response object under
    construction, the log and the clock.  The Session Registry of the
    design document has no counterpart in the sources; it is modelled
    apart, in [Module Registry], from the text of the design. *)

From stdpp Require Import gmap strings list.
From Stdlib Require Import ZArith Lia DecimalString DecimalZ DecimalPos.

Local Open Scope string_scope.
#[local] Set Warnings "-register-all".

(* ================================================================== *)
(** ** JavaScript values *)
(* ================================================================== *)

Module Js.

(** The values handlers see and build.  An object keeps its properties in
    insertion order, which is the order [JSON.stringify] emits them in. *)
Inductive JsValue : Type :=
| JUndefined
| JNull
| JBool (b : bool)
| JNum (n : Z)          (* the numbers of these handlers are integers *)
| JStr (s : string)
| JArr (xs : list JsValue)
| JObj (props : list (string * JsValue))
| JError (name message : string).

Definition is_undefined (v : JsValue) : bool :=
  match v with JUndefined => true | _ => false end.

Definition is_nullish (v : JsValue) : bool :=
  match v with JUndefined | JNull => true | _ => false end.

Fixpoint assoc (k : string) (ps : list (string * JsValue)) : option JsValue :=
  match ps with
  | [] => None
  | (k', v) :: ps' => if String.eqb k k' then Some v else assoc k ps'
  end.

(** [v.k] for a value that is neither [undefined] nor [null]: a missing
    property, and any property of a primitive or an array that is not
    among its own, reads as [undefined]. *)
Definition get_prop (v : JsValue) (k : string) : JsValue :=
  match v with
  | JObj ps => match assoc k ps with Some x => x | None => JUndefined end
  | _ => JUndefined
  end.

Definition has_prop (v : JsValue) (k : string) : bool :=
  negb (is_undefined (get_prop v k)).

(** What [JSON.stringify] keeps of a value: a property whose value is
    [undefined] is left out, an [undefined] array element becomes [null],
    an [Error] has no enumerable property. *)
Fixpoint toJSON (v : JsValue) : JsValue :=
  match v with
  | JArr xs =>
      JArr (List.map (fun x => if is_undefined x then JNull else toJSON x) xs)
  | JObj ps =>
      JObj ((fix props (l : list (string * JsValue)) : list (string * JsValue) :=
               match l with
               | [] => []
               | (k, x) :: l' =>
                   if is_undefined x then props l' else (k, toJSON x) :: props l'
               end) ps)
  | JError _ _ => JObj []
  | _ => v
  end.

(** The values [JSON.parse] and the body parsers produce: no [undefined]
    and no [Error] at any depth. *)
Fixpoint is_json (v : JsValue) : bool :=
  match v with
  | JUndefined | JError _ _ => false
  | JArr xs => forallb is_json xs
  | JObj ps =>
      (fix all (l : list (string * JsValue)) : bool :=
         match l with
         | [] => true
         | (_, x) :: l' => is_json x && all l'
         end) ps
  | _ => true
  end.

Definition keys (v : JsValue) : list string :=
  match v with
  | JObj ps => List.map fst ps
  | _ => []
  end.

(** The quotation mark, for string literals that contain one. *)
Definition dq : string := String (Ascii.ascii_of_nat 34) EmptyString.
Definition nl : string := String (Ascii.ascii_of_nat 10) EmptyString.

(** [`${n}`] for an integer. *)
Definition show_int (n : Z) : string := NilZero.string_of_int (Z.to_int n).

End Js.
Import Js.

(* ================================================================== *)
(** ** The logger, the clock and the response object *)
(* ================================================================== *)

Module Express.

Inductive Level := Info | Error.

Record LogEntry := { level : Level; message : string; meta : JsValue }.

(** [Date.now()] is read from [clock], one reading per call. *)
Record World := {
  log : list LogEntry;
  clock : nat -> Z;
  reads : nat
}.

Inductive Payload :=
| JsonBody (v : JsValue)
| TextBody (s : string).

(** The response under construction: [res.statusCode] starts at 200. *)
Record Res := {
  statusCode : Z;
  headers : list (string * string);
  payload : option Payload
}.

Definition fresh_res : Res :=
  {| statusCode := 200; headers := []; payload := None |}.

Record St := { world : World; res : Res }.

Inductive Outcome (A : Type) :=
| Done (a : A)
| Thrown (e : JsValue).
Arguments Done {A} a.
Arguments Thrown {A} e.

Definition Exec (A : Type) : Type := St -> Outcome A * St.

Definition ret {A} (a : A) : Exec A := fun st => (Done a, st).

Definition bind {A B} (m : Exec A) (f : A -> Exec B) : Exec B :=
  fun st =>
    match m st with
    | (Done a, st') => f a st'
    | (Thrown e, st') => (Thrown e, st')
    end.

Definition throw {A} (e : JsValue) : Exec A := fun st => (Thrown e, st).

(** [try { body } catch (error) { handler }] *)
Definition try_catch (body : Exec unit) (handler : JsValue -> Exec unit) : Exec unit :=
  fun st =>
    match body st with
    | (Done tt, st') => (Done tt, st')
    | (Thrown e, st') => handler e st'
    end.

Declare Scope exec_scope.
Delimit Scope exec_scope with exec.
Notation "'let!' x ':=' m 'in' k" := (bind m (fun x => k))
  (at level 10, x pattern, m at level 100, k at level 200) : exec_scope.
Notation "m '>>' k" := (bind m (fun _ => k))
  (at level 100, k at level 200, right associativity) : exec_scope.
Local Open Scope exec_scope.

Definition with_world (f : World -> World) : Exec unit :=
  fun st => (Done tt, {| world := f (world st); res := res st |}).

Definition with_res (f : Res -> Res) : Exec unit :=
  fun st => (Done tt, {| world := world st; res := f (res st) |}).

Definition log_line (l : Level) (msg : string) (m : JsValue) (w : World) : World :=
  {| log := log w ++ [{| level := l; message := msg; meta := m |}];
     clock := clock w; reads := reads w |}.

Definition write_log (l : Level) (msg : string) (m : JsValue) : Exec unit :=
  with_world (log_line l msg m).

Definition logger_info := write_log Info.
Definition logger_error := write_log Error.

Definition Date_now : Exec Z :=
  fun st =>
    let w := world st in
    (Done (clock w (reads w)),
     {| world := {| log := log w; clock := clock w; reads := S (reads w) |};
        res := res st |}).

(** The error a destructuring pattern raises on [null] and [undefined]:
    the engine's message names the first property of the pattern and the
    value found. *)
Definition destructure_error (first : string) (v : JsValue) : JsValue :=
  JError "TypeError"
    ("Cannot destructure property '" ++ first ++ "' of 'req.body' as it is " ++
     (match v with JNull => "null" | _ => "undefined" end) ++ ".").

(** The check a destructuring pattern makes of its right-hand side. *)
Definition destructurable (first : string) (v : JsValue) : Exec unit :=
  if is_nullish v then throw (destructure_error first v) else ret tt.

Fixpoint header (k : string) (hs : list (string * string)) : option string :=
  match hs with
  | [] => None
  | (k', v) :: hs' => if String.eqb k k' then Some v else header k hs'
  end.

Fixpoint set_header (k v : string) (hs : list (string * string))
  : list (string * string) :=
  match hs with
  | [] => [(k, v)]
  | (k', v') :: hs' =>
      if String.eqb k k' then (k, v) :: hs' else (k', v') :: set_header k v hs'
  end.

(** [res.status(code)] *)
Definition res_status (code : Z) : Exec unit :=
  with_res (fun r =>
    {| statusCode := code; headers := headers r; payload := payload r |}).

(** [res.set(field, value)].  (Express completes a [Content-Type] value
    with its charset parameter; the media type is what is kept here.) *)
Definition res_set (k v : string) : Exec unit :=
  with_res (fun r =>
    {| statusCode := statusCode r; headers := set_header k v (headers r);
       payload := payload r |}).

(** [res.json(obj)]: the body is [JSON.stringify(obj)], the content type
    [application/json] unless one was set. *)
Definition res_json (obj : JsValue) : Exec unit :=
  with_res (fun r =>
    {| statusCode := statusCode r;
       headers := match header "Content-Type" (headers r) with
                  | Some _ => headers r
                  | None => set_header "Content-Type" "application/json" (headers r)
                  end;
       payload := Some (JsonBody (toJSON obj)) |}).

(** [res.send(text)]: a string body, [text/html] unless a type was set. *)
Definition res_send (text : string) : Exec unit :=
  with_res (fun r =>
    {| statusCode := statusCode r;
       headers := match header "Content-Type" (headers r) with
                  | Some _ => headers r
                  | None => set_header "Content-Type" "text/html" (headers r)
                  end;
       payload := Some (TextBody text) |}).

(** What the router hands to a handler: the route parameters and the
    parsed body ([undefined] when no body parser ran). *)
Record Request := {
  params : list (string * string);
  body : JsValue
}.

Definition param (req : Request) (k : string) : JsValue :=
  match header k (params req) with
  | Some s => JStr s
  | None => JUndefined
  end.

Definition Handler := Request -> Exec unit.

(** One request: the handler runs on a fresh response object. *)
Definition respond (h : Handler) (req : Request) (w : World)
  : Outcome unit * Res * World :=
  let '(o, st) := h req {| world := w; res := fresh_res |} in
  (o, res st, world st).

Definition response (h : Handler) (req : Request) (w : World) : Res :=
  snd (fst (respond h req w)).

Definition world_after (h : Handler) (req : Request) (w : World) : World :=
  snd (respond h req w).

Definition json_body (r : Res) : option JsValue :=
  match payload r with
  | Some (JsonBody v) => Some v
  | _ => None
  end.

Definition text_body (r : Res) : option string :=
  match payload r with
  | Some (TextBody s) => Some s
  | _ => None
  end.

(** The names of the fields of a JSON response body, in order. *)
Definition body_fields (r : Res) : list string :=
  match json_body r with
  | Some v => keys v
  | None => []
  end.

Definition body_field (r : Res) (k : string) : JsValue :=
  match json_body r with
  | Some v => get_prop v k
  | None => JUndefined
  end.

End Express.
Import Express.

(* ================================================================== *)
(** ** The routes of [routes/index.ts] *)
(* ================================================================== *)

Module Routes.

Local Open Scope exec_scope.

(** [GET /health] *)
Definition get_health : Handler := fun _ =>
  res_status 200 >>
  res_json (JObj [("status", JStr "ok"); ("service", JStr "voice-ai")]).

(** [POST /conversations] *)
Definition post_conversations : Handler := fun req =>
  try_catch
    (destructurable "customerId" (body req) >>
     let customerId := get_prop (body req) "customerId" in
     let phoneNumber := get_prop (body req) "phoneNumber" in
     let initialContext := get_prop (body req) "initialContext" in
     logger_info "Initializing new conversation"
       (JObj [("customerId", customerId); ("phoneNumber", phoneNumber)]) >>
     res_status 201 >>
     let! now := Date_now in
     res_json (JObj [("conversationId", JStr ("conv-" ++ show_int now));
                     ("status", JStr "initialized");
                     ("message", JStr "Voice AI conversation initiated")]))
    (fun error =>
       logger_error "Failed to initialize conversation" (JObj [("error", error)]) >>
       res_status 500 >>
       res_json (JObj [("error", JStr "Failed to initialize conversation")])).

(** The three turns of the canned transcript; [t1], [t2], [t3] are the
    three readings of the clock. *)
Definition mock_transcript (t1 t2 t3 : Z) : JsValue :=
  JArr [
    JObj [("speaker", JStr "ai");
          ("text", JStr "Hello, how can I help you with your insurance needs today?");
          ("timestamp", JNum (t1 - 120000))];
    JObj [("speaker", JStr "customer");
          ("text", JStr "I need a quote for my small business.");
          ("timestamp", JNum (t2 - 90000))];
    JObj [("speaker", JStr "ai");
          ("text", JStr "I can definitely help with that. What type of business do you operate?");
          ("timestamp", JNum (t3 - 60000))]
  ].

(** [GET /conversations/:id] *)
Definition get_conversation : Handler := fun req =>
  try_catch
    (let conversationId := param req "id" in
     logger_info "Retrieving conversation" (JObj [("conversationId", conversationId)]) >>
     res_status 200 >>
     let! t1 := Date_now in
     let! t2 := Date_now in
     let! t3 := Date_now in
     res_json (JObj [("conversationId", conversationId);
                     ("status", JStr "active");
                     ("durationSeconds", JNum 120);
                     ("transcript", mock_transcript t1 t2 t3)]))
    (fun error =>
       logger_error "Failed to retrieve conversation"
         (JObj [("error", error); ("conversationId", param req "id")]) >>
       res_status 500 >>
       res_json (JObj [("error", JStr "Failed to retrieve conversation")])).

(** [POST /conversations/:id/end] *)
Definition post_conversation_end : Handler := fun req =>
  try_catch
    (let conversationId := param req "id" in
     logger_info "Ending conversation" (JObj [("conversationId", conversationId)]) >>
     res_status 200 >>
     res_json (JObj [
       ("conversationId", conversationId);
       ("status", JStr "completed");
       ("durationSeconds", JNum 305);
       ("summary", JStr "Customer inquired about business insurance options for a small retail shop.");
       ("nextSteps", JStr "Follow up with customer to collect additional business details.");
       ("documentationNeeded", JArr [JStr "Business license"; JStr "Previous insurance policy"])]))
    (fun error =>
       logger_error "Failed to end conversation"
         (JObj [("error", error); ("conversationId", param req "id")]) >>
       res_status 500 >>
       res_json (JObj [("error", JStr "Failed to end conversation")])).

(** The TwiML template literal, with its line breaks and indentation. *)
Definition twiml : string :=
  nl ++
  "      <?xml version=" ++ dq ++ "1.0" ++ dq ++ " encoding=" ++ dq ++ "UTF-8" ++ dq ++ "?>" ++ nl ++
  "      <Response>" ++ nl ++
  "        <Say>Hello, thank you for calling Harper Insurance. Our AI assistant will help you with your insurance needs.</Say>" ++ nl ++
  "        <Connect>" ++ nl ++
  "          <Stream url=" ++ dq ++ "wss://voice-ai.harper-insurance.com/stream" ++ dq ++ " />" ++ nl ++
  "        </Connect>" ++ nl ++
  "      </Response>" ++ nl ++
  "    ".

(** [POST /webhooks/twilio] *)
Definition post_webhooks_twilio : Handler := fun req =>
  try_catch
    (destructurable "CallSid" (body req) >>
     let CallSid := get_prop (body req) "CallSid" in
     let From := get_prop (body req) "From" in
     let To := get_prop (body req) "To" in
     logger_info "Received incoming call via Twilio"
       (JObj [("CallSid", CallSid); ("From", From); ("To", To)]) >>
     res_set "Content-Type" "text/xml" >>
     res_send twiml)
    (fun error =>
       logger_error "Error processing Twilio webhook" (JObj [("error", error)]) >>
       res_status 500 >>
       res_json (JObj [("error", JStr "Failed to process webhook")])).

(** [POST /livekit/token] *)
Definition post_livekit_token : Handler := fun req =>
  try_catch
    (destructurable "identity" (body req) >>
     let identity := get_prop (body req) "identity" in
     let room := get_prop (body req) "room" in
     logger_info "Generating LiveKit token"
       (JObj [("identity", identity); ("room", room)]) >>
     res_status 200 >>
     res_json (JObj [("token", JStr "mock-livekit-token-xyz");
                     ("room", room);
                     ("identity", identity);
                     ("expiresIn", JNum 3600)]))
    (fun error =>
       logger_error "Failed to generate LiveKit token" (JObj [("error", error)]) >>
       res_status 500 >>
       res_json (JObj [("error", JStr "Failed to generate token")])).

(** The routes the router declares, each with the parameters its path
    binds.  ([GET /conversations/:id/memory] returns another literal and
    is left out.) *)
Inductive Endpoint :=
| GetHealth
| PostConversations
| GetConversation (id : string)
| PostConversationEnd (id : string)
| PostWebhooksTwilio
| PostLivekitToken.

Definition handler_of (e : Endpoint) : Handler :=
  match e with
  | GetHealth => get_health
  | PostConversations => post_conversations
  | GetConversation _ => get_conversation
  | PostConversationEnd _ => post_conversation_end
  | PostWebhooksTwilio => post_webhooks_twilio
  | PostLivekitToken => post_livekit_token
  end.

Definition params_of (e : Endpoint) : list (string * string) :=
  match e with
  | GetConversation id | PostConversationEnd id => [("id", id)]
  | _ => []
  end.

(** A call of the HTTP interface: the route matched and the parsed body. *)
Record Call := { endpoint : Endpoint; payload_in : JsValue }.

Definition request_of (c : Call) : Request :=
  {| params := params_of (endpoint c); body := payload_in c |}.

Definition serve (c : Call) (w : World) : Res * World :=
  (response (handler_of (endpoint c)) (request_of c) w,
   world_after (handler_of (endpoint c)) (request_of c) w).

(** The service over a history of calls: the responses, oldest first. *)
Fixpoint serve_all (cs : list Call) (w : World) : list Res * World :=
  match cs with
  | [] => ([], w)
  | c :: cs' =>
      let '(r, w') := serve c w in
      let '(rs, w'') := serve_all cs' w' in
      (r :: rs, w'')
  end.

(** The conversation ids the service has handed out over a history: the
    [conversationId] of every 201 answer to [POST /conversations]. *)
Fixpoint issued_ids (cs : list Call) (rs : list Res) : list JsValue :=
  match cs, rs with
  | c :: cs', r :: rs' =>
      match endpoint c with
      | PostConversations =>
          if (statusCode r =? 201)%Z
          then body_field r "conversationId" :: issued_ids cs' rs'
          else issued_ids cs' rs'
      | _ => issued_ids cs' rs'
      end
  | _, _ => []
  end.

Definition known_ids (cs : list Call) (w : World) : list JsValue :=
  issued_ids cs (fst (serve_all cs w)).

(** The answer to call [c] made after the history [cs]. *)
Definition answer_after (cs : list Call) (c : Call) (w : World) : Res :=
  fst (serve c (snd (serve_all cs w))).

(** A call-control answer: a text body served as [text/xml]. *)
Definition is_call_control (r : Res) : bool :=
  match header "Content-Type" (headers r), payload r with
  | Some ty, Some (TextBody _) => String.eqb ty "text/xml"
  | _, _ => false
  end.

Definition json_response (code : Z) (v : JsValue) : Res :=
  {| statusCode := code;
     headers := [("Content-Type", "application/json")];
     payload := Some (JsonBody v) |}.

(** The two answers of the webhook route, and the failure answer of the
    token route. *)
Definition twiml_response : Res :=
  {| statusCode := 200;
     headers := [("Content-Type", "text/xml")];
     payload := Some (TextBody twiml) |}.

Definition webhook_failure_response : Res :=
  json_response 500 (JObj [("error", JStr "Failed to process webhook")]).

Definition token_failure_response : Res :=
  json_response 500 (JObj [("error", JStr "Failed to generate token")]).

Definition world0 : World := {| log := []; clock := fun _ => 1700000000000%Z; reads := 0 |}.

End Routes.
Import Routes.

(* ================================================================== *)
(** ** The socket handlers of [server.ts] *)
(* ================================================================== *)

Module Server.

(** What a client can send over its socket: the two events the server
    listens to, and any other, for which it has no listener. *)
Inductive SocketEvent :=
| VoiceStream (audioData : JsValue)
| Disconnect
| Unlistened (name : string) (arg : JsValue).

Record Emit := { event : string; data : JsValue }.

(** One connection: the socket's id, what the server has emitted on it so
    far (oldest first) and the world. *)
Record Conn := {
  socket_id : string;
  emitted : list Emit;
  conn_world : World
}.

(** [io.on('connection', (socket) => ...)] *)
Definition on_connection (id : string) (w : World) : Conn :=
  {| socket_id := id; emitted := [];
     conn_world := log_line Info ("Client connected: " ++ id) JUndefined w |}.

(** [socket.on('voiceStream', (audioData) => ...)] *)
Definition on_voiceStream (audioData : JsValue) (c : Conn) : Conn :=
  {| socket_id := socket_id c;
     emitted := emitted c ++
       [{| event := "aiResponse";
           data := JObj [("message", JStr "Voice data received")] |}];
     conn_world := conn_world c |}.

(** [socket.on('disconnect', () => ...)] *)
Definition on_disconnect (c : Conn) : Conn :=
  {| socket_id := socket_id c; emitted := emitted c;
     conn_world :=
       log_line Info ("Client disconnected: " ++ socket_id c) JUndefined (conn_world c) |}.

Definition socket_step (c : Conn) (e : SocketEvent) : Conn :=
  match e with
  | VoiceStream audioData => on_voiceStream audioData c
  | Disconnect => on_disconnect c
  | Unlistened _ _ => c
  end.

Definition socket_run (c : Conn) (es : list SocketEvent) : Conn :=
  fold_left socket_step es c.

Definition is_voiceStream (e : SocketEvent) : bool :=
  match e with VoiceStream _ => true | _ => false end.

Definition ai_response : Emit :=
  {| event := "aiResponse"; data := JObj [("message", JStr "Voice data received")] |}.

(** What one event adds to the emitted list. *)
Definition emitted_by (c : Conn) (e : SocketEvent) : list Emit :=
  drop (length (emitted c)) (emitted (socket_step c e)).

End Server.
Import Server.

(* ================================================================== *)
(** ** The Session Registry of the design *)
(* ================================================================== *)

(** The sources hold no session store: every handler above answers with a
    literal.  The registry below follows sections 3, 4.1 and 7 of the
    design document, operation by operation. *)

Module Registry.

(** Modelled from the spec: the channel, status and speaker enumerations
    of section 3, which the sources do not declare. *)
Inductive Channel := voice | chat | sms | email | web.
Inductive Status := initializing | active | completing | completed | failed.
Inductive Speaker := agent | customer | system.

(** Modelled from the spec: the error taxonomy of section 7 (the sources
    raise no typed error). *)
Inductive RegistryError :=
| NotFoundError
| ConflictError
| InvalidStateError
| InvalidTransitionError
| ValidationError
| TimeoutError.

#[global] Instance Channel_eq_dec : EqDecision Channel.
Proof. solve_decision. Defined.
#[global] Instance Status_eq_dec : EqDecision Status.
Proof. solve_decision. Defined.

(** Modelled from the spec: the inputs of the state machine of section
    4.1, one per cause the design lists (the sources name none). *)
Inductive Event :=
| Attached          (* first successful transport attach *)
| EndRequested      (* explicit end request *)
| Disconnected      (* channel-level termination signal *)
| Drained           (* the transport has fully drained *)
| TransportError    (* unrecoverable transport error *)
| AttachTimeout.    (* timeout waiting for attach *)

#[global] Instance Event_eq_dec : EqDecision Event.
Proof. solve_decision. Defined.

(** Modelled from the spec: the Session record of section 3 (the sources
    declare no session type).  [transcriptSeq] is the sequence number the
    next accepted utterance receives.  [endedBy], which section 3 does
    not list, keeps the terminal event that ended the session, set with
    [endedAt]: the rule of section 4.1 on the re-delivery of the same
    terminal event needs it. *)
Record Session := {
  id : nat;
  channel : Channel;
  status : Status;
  startedAt : Z;
  endedAt : option Z;
  endedBy : option Event;
  participantRef : string;
  transcriptSeq : nat;
  metadata : gmap string string
}.

(** Modelled from the spec: the Utterance record of section 3. *)
Record Utterance := {
  sessionId : nat;
  seq : nat;
  speaker : Speaker;
  text : string;
  emittedAt : Z
}.

(** Modelled from the spec: the terminal states of section 4.1. *)
Definition is_terminal (s : Status) : bool :=
  match s with completed | failed => true | _ => false end.

(** Modelled from the spec: the terminal events, each with the terminal
    state section 4.1 makes it lead to. *)
Definition terminal_target (e : Event) : option Status :=
  match e with
  | Drained => Some completed
  | TransportError | AttachTimeout => Some failed
  | _ => None
  end.

Inductive Result (A : Type) :=
| Ok (a : A)
| Err (e : RegistryError).
Arguments Ok {A} a.
Arguments Err {A} e.

(** Modelled from the spec: the transitions of section 4.1 (no state
    machine exists in the sources), as a relation between states.  In a
    terminal state an event that leads to that state changes nothing, and
    neither does [Disconnected] (section 4.2, detach on a terminal
    session); [transition] asks further that the event be the one that
    ended the session. *)
Definition next (s : Status) (e : Event) : Result Status :=
  match s, e with
  | initializing, Attached => Ok active
  | active, EndRequested => Ok completing
  | active, Disconnected => Ok completing
  | completing, Drained => Ok completed
  | (initializing | active | completing), (TransportError | AttachTimeout) => Ok failed
  | completed, Drained => Ok completed
  | failed, (TransportError | AttachTimeout) => Ok failed
  | (completed | failed), Disconnected => Ok s
  | _, _ => Err InvalidTransitionError
  end.

Fixpoint next_all (s : Status) (es : list Event) : Result Status :=
  match es with
  | [] => Ok s
  | e :: es' =>
      match next s e with
      | Ok s' => next_all s' es'
      | Err err => Err err
      end
  end.

(** Modelled from the spec: what the registry publishes to the fan-out
    (section 4.1, side effects). *)
Inductive Published :=
| StatusChanged (sid : nat) (s : Status)
| UtteranceAppended (sid : nat) (n : nat).

(** Modelled from the spec: the registry's state, the sessions keyed by
    their identifier (section 2; the sources keep no session). *)
Record Registry := {
  sessions : gmap nat Session;
  utterances : list Utterance;
  published : list Published
}.

Definition empty : Registry :=
  {| sessions := ∅; utterances := []; published := [] |}.

Definition with_status (s : Session) (st : Status) (ended : option Z)
    (by_event : option Event) : Session :=
  {| id := id s; channel := channel s; status := st; startedAt := startedAt s;
     endedAt := ended; endedBy := by_event; participantRef := participantRef s;
     transcriptSeq := transcriptSeq s; metadata := metadata s |}.

Definition bump_seq (s : Session) : Session :=
  {| id := id s; channel := channel s; status := status s; startedAt := startedAt s;
     endedAt := endedAt s; endedBy := endedBy s; participantRef := participantRef s;
     transcriptSeq := S (transcriptSeq s); metadata := metadata s |}.

(** Modelled from the spec: a session that stands in the way of a new one
    for the pair, one on the same channel for the same participant that is
    not in a terminal state (sections 3 and 8). *)
Definition occupies (ch : Channel) (p : string) (s : Session) : bool :=
  bool_decide (channel s = ch) && String.eqb (participantRef s) p
  && negb (is_terminal (status s)).

Definition has_live (ch : Channel) (p : string) (m : gmap nat Session) : bool :=
  existsb (occupies ch p) (snd <$> map_to_list m).

(** Modelled from the spec: [createSession] of section 4.1 (absent from
    the sources).  The id is one no session of the registry bears. *)
Definition createSession (ch : Channel) (p : string) (md : gmap string string)
    (now : Z) (r : Registry) : Result Session * Registry :=
  if has_live ch p (sessions r) then (Err ConflictError, r)
  else
    let s := {| id := fresh (dom (sessions r)); channel := ch;
                status := initializing; startedAt := now; endedAt := None;
                endedBy := None;
                participantRef := p; transcriptSeq := 0; metadata := md |} in
    (Ok s, {| sessions := <[id s := s]> (sessions r);
              utterances := utterances r; published := published r |}).

(** Modelled from the spec: [getSession] of section 4.1. *)
Definition getSession (sid : nat) (r : Registry) : Result Session :=
  match sessions r !! sid with
  | Some s => Ok s
  | None => Err NotFoundError
  end.

(** Modelled from the spec: [appendUtterance] of section 4.1. *)
Definition appendUtterance (sid : nat) (sp : Speaker) (txt : string)
    (now : Z) (r : Registry) : Result nat * Registry :=
  match sessions r !! sid with
  | None => (Err NotFoundError, r)
  | Some s =>
      if bool_decide (status s = active) then
        let n := transcriptSeq s in
        (Ok n,
         {| sessions := <[sid := bump_seq s]> (sessions r);
            utterances := utterances r ++
              [{| sessionId := sid; seq := n; speaker := sp; text := txt;
                  emittedAt := now |}];
            published := published r ++ [UtteranceAppended sid n] |})
      else (Err InvalidStateError, r)
  end.

(** Modelled from the spec: the events a terminal session takes without
    an error: the terminal event that ended it (section 4.1) and
    [Disconnected] (section 4.2). *)
Definition redelivered (s : Session) (e : Event) : bool :=
  bool_decide (e = Disconnected) || bool_decide (endedBy s = Some e).

(** Modelled from the spec: [transition] of section 4.1.  On a terminal
    session the re-delivery of the event that ended it returns the
    session as it is and publishes nothing, and any other terminal event
    is an [InvalidTransitionError]; [endedAt] and [endedBy] are written by
    the transition that enters a terminal state. *)
Definition transition (sid : nat) (e : Event) (now : Z) (r : Registry)
    : Result Session * Registry :=
  match sessions r !! sid with
  | None => (Err NotFoundError, r)
  | Some s =>
      match next (status s) e with
      | Err err => (Err err, r)
      | Ok st =>
          if is_terminal (status s) then
            if redelivered s e then (Ok s, r) else (Err InvalidTransitionError, r)
          else
            let s' := with_status s st
                        (if is_terminal st then Some now else endedAt s)
                        (if is_terminal st then Some e else endedBy s) in
            (Ok s',
             {| sessions := <[sid := s']> (sessions r);
                utterances := utterances r;
                published := published r ++ [StatusChanged sid st] |})
      end
  end.

Inductive Reason := Finished | Aborted.

(** Modelled from the spec: [endSession] of section 4.1, which drives an
    active or completing session to [completed] or to [failed]. *)
Definition endSession (sid : nat) (why : Reason) (now : Z) (r : Registry)
    : Result Session * Registry :=
  match why with
  | Aborted => transition sid TransportError now r
  | Finished =>
      match sessions r !! sid with
      | None => (Err NotFoundError, r)
      | Some s =>
          if bool_decide (status s = active) then
            match transition sid EndRequested now r with
            | (Ok _, r') => transition sid Drained now r'
            | (Err err, r') => (Err err, r')
            end
          else transition sid Drained now r
      end
  end.

(** The calls a client of the registry can make, and what they return. *)
Inductive Op :=
| Create (ch : Channel) (p : string) (md : gmap string string)
| Append (sid : nat) (sp : Speaker) (txt : string)
| Transition (sid : nat) (e : Event)
| End (sid : nat) (why : Reason).

Inductive Reply :=
| Session_ (s : Session)
| Seq_ (n : nat)
| Failed_ (e : RegistryError).

Definition reply_of_session (x : Result Session) : Reply :=
  match x with Ok s => Session_ s | Err e => Failed_ e end.

Definition apply_op (now : Z) (o : Op) (r : Registry) : Reply * Registry :=
  match o with
  | Create ch p md =>
      let '(x, r') := createSession ch p md now r in (reply_of_session x, r')
  | Append sid sp txt =>
      let '(x, r') := appendUtterance sid sp txt now r in
      (match x with Ok n => Seq_ n | Err e => Failed_ e end, r')
  | Transition sid e =>
      let '(x, r') := transition sid e now r in (reply_of_session x, r')
  | End sid why =>
      let '(x, r') := endSession sid why now r in (reply_of_session x, r')
  end.

(** A history: calls with the time of each, oldest first. *)
Fixpoint run (ops : list (Z * Op)) (r : Registry) : list Reply * Registry :=
  match ops with
  | [] => ([], r)
  | (now, o) :: ops' =>
      let '(y, r') := apply_op now o r in
      let '(ys, r'') := run ops' r' in
      (y :: ys, r'')
  end.

(** The sequence numbers the accepted [appendUtterance] calls on session
    [sid] returned, in the order of the calls. *)
Fixpoint accepted_seqs (sid : nat) (ops : list (Z * Op)) (ys : list Reply) : list nat :=
  match ops, ys with
  | (_, Append sid' _ _) :: ops', Seq_ n :: ys' =>
      if bool_decide (sid' = sid) then n :: accepted_seqs sid ops' ys'
      else accepted_seqs sid ops' ys'
  | _ :: ops', _ :: ys' => accepted_seqs sid ops' ys'
  | _, _ => []
  end.

(** Sample data: a registry with one fresh session, a short history on
    it, and a registry whose one session is completed. *)
Definition witness_session : Session :=
  {| id := 0; channel := voice; status := initializing; startedAt := 10;
     endedAt := None; endedBy := None; participantRef := "+15551234567";
     transcriptSeq := 0; metadata := ∅ |}.

Definition witness_registry : Registry :=
  {| sessions := {[ 0 := witness_session ]}; utterances := []; published := [] |}.

Definition witness_active : Session :=
  {| id := 0; channel := voice; status := active; startedAt := 10;
     endedAt := None; endedBy := None; participantRef := "+15551234567";
     transcriptSeq := 1; metadata := ∅ |}.

Definition witness_history : list (Z * Op) :=
  [(11%Z, Transition 0 Attached); (12%Z, Append 0 customer "hello")].

Definition completed_session : Session :=
  {| id := 0; channel := voice; status := completed; startedAt := 10;
     endedAt := Some 15%Z; endedBy := Some Drained;
     participantRef := "+15551234567"; transcriptSeq := 1; metadata := ∅ |}.

(** A history that takes session 0 to [completed], and calls made on it
    afterwards. *)
Definition closing_history : list (Z * Op) :=
  [(10%Z, Create voice "+15551234567" ∅); (11%Z, Transition 0 Attached);
   (12%Z, Append 0 customer "hello"); (13%Z, Transition 0 Disconnected);
   (15%Z, Transition 0 Drained)].

Definition later_history : list (Z * Op) :=
  [(16%Z, Transition 0 Attached); (17%Z, Append 0 agent "late");
   (18%Z, End 0 Aborted); (19%Z, Create voice "+15551234567" ∅);
   (20%Z, Transition 0 AttachTimeout); (21%Z, Transition 1 TransportError);
   (22%Z, Transition 1 AttachTimeout)].

Definition completed_registry : Registry := snd (run closing_history empty).

(** Modelled from the spec: every session in a terminal state carries the
    terminal event that ended it, one that leads to the state it is in. *)
Definition ended_well (r : Registry) : Prop :=
  forall sid s, sessions r !! sid = Some s -> is_terminal (status s) = true ->
    exists e, endedBy s = Some e /\ terminal_target e = Some (status s).

(** The sequence number the next accepted utterance of session [sid]
    receives: that of the session, and 0 as long as there is none. *)
Definition next_seq (sid : nat) (r : Registry) : nat :=
  match sessions r !! sid with
  | Some s => transcriptSeq s
  | None => 0
  end.

(** How a session may differ from an earlier version of itself. *)
Record evolves (s s' : Session) : Prop := {
  ev_channel : channel s' = channel s;
  ev_participant : participantRef s' = participantRef s;
  ev_status : status s' = initializing -> status s = initializing;
  ev_seq : transcriptSeq s <= transcriptSeq s'
}.

End Registry.

(* ================================================================== *)
(** ** What the routes read and write *)
(* ================================================================== *)

Module RoutesAux.

(** The routes whose handler destructures [req.body]. *)
Definition reads_body (e : Endpoint) : bool :=
  match e with
  | PostConversations | PostWebhooksTwilio | PostLivekitToken => true
  | _ => false
  end.

(** The status a route sends from its [try] block. *)
Definition success_code (e : Endpoint) : Z :=
  match e with
  | PostConversations => 201
  | _ => 200
  end.

(** The properties of the body a handler names in its destructuring
    pattern and goes on to use. *)
Definition fields_used (e : Endpoint) : list string :=
  match e with
  | PostConversations => ["customerId"; "phoneNumber"]
  | PostWebhooksTwilio => ["CallSid"; "From"; "To"]
  | PostLivekitToken => ["identity"; "room"]
  | _ => []
  end.

Definition logs_a_line (c : Call) : bool :=
  match endpoint c with GetHealth => false | _ => true end.

Definition is_error_entry (l : LogEntry) : bool :=
  match level l with Error => true | Info => false end.

Definition is_500 (r : Res) : bool := (statusCode r =? 500)%Z.

(** A conversation id read back: the clock reading after [conv-]. *)
Definition parse_conversation_id (v : JsValue) : option Z :=
  match v with
  | JStr s =>
      if String.prefix "conv-" s
      then option_map Z.of_int (NilZero.int_of_string (String.substring 5 (String.length s - 5) s))
      else None
  | _ => None
  end.

(** The [timestamp] properties of the turns of a transcript. *)
Definition transcript_timestamps (r : Res) : list JsValue :=
  match body_field r "transcript" with
  | JArr turns => List.map (fun turn => get_prop turn "timestamp") turns
  | _ => []
  end.

Definition steady_clock (t : Z) : World :=
  {| log := []; clock := fun n => (t + Z.of_nat n)%Z; reads := 0 |}.

End RoutesAux.
Import RoutesAux.

(* ================================================================== *)
(** ** The router as mounted: behind the body parsers *)
(* ================================================================== *)

Module App.

(** What [JSON.parse] and the form parser yield: values without
    [undefined] and without [Error]. *)
Inductive Json : Type :=
| JsonNull
| JsonBool (b : bool)
| JsonNum (n : Z)
| JsonStr (s : string)
| JsonArr (xs : list Json)
| JsonObj (ps : list (string * Json)).

Fixpoint to_js (j : Json) : JsValue :=
  match j with
  | JsonNull => JNull
  | JsonBool b => JBool b
  | JsonNum n => JNum n
  | JsonStr s => JStr s
  | JsonArr xs => JArr (List.map to_js xs)
  | JsonObj ps =>
      JObj ((fix props (l : list (string * Json)) : list (string * JsValue) :=
               match l with
               | [] => []
               | (k, x) :: l' => (k, to_js x) :: props l'
               end) ps)
  end.

(** The body of a request as it arrives: none that a parser takes (no
    body, or a content type that is neither JSON nor a form), a JSON
    text, a text sent as JSON that is not JSON, or a form. *)
Inductive Wire :=
| NoBody
| JsonText (j : Json)
| BadJsonText
| FormText (fields : list (string * Json)).

(** [app.use(express.json()); app.use(express.urlencoded({ extended: true }))]:
    [req.body] starts as the empty object; the JSON parser, strict by
    default, takes objects and arrays only and answers anything else with
    an error of status 400; a form becomes an object.  Either the request
    goes on with a body, or the status of the error is returned.  (Size
    and charset limits are left out.) *)
Definition body_parsers (wire : Wire) : Z + JsValue :=
  match wire with
  | NoBody => inr (JObj [])
  | JsonText (JsonArr xs) => inr (to_js (JsonArr xs))
  | JsonText (JsonObj ps) => inr (to_js (JsonObj ps))
  | JsonText _ => inl 400%Z
  | BadJsonText => inl 400%Z
  | FormText fields => inr (to_js (JsonObj fields))
  end.

(** Who answers a request: a route of the router, or Express itself with
    its error page for an error raised before the router. *)
Inductive Answer :=
| ByRoute (r : Res)
| ByExpress (status : Z).

(** [app.use('/api', routes)] behind the parsers.  (The headers [cors()]
    adds to every answer are left out.) *)
Definition mounted (e : Endpoint) (wire : Wire) (w : World) : Answer * World :=
  match body_parsers wire with
  | inl status => (ByExpress status, w)
  | inr b =>
      let '(r, w') := serve {| endpoint := e; payload_in := b |} w in
      (ByRoute r, w')
  end.

(** An answer that is call-control markup; the error page of Express is
    HTML. *)
Definition answer_is_call_control (a : Answer) : bool :=
  match a with
  | ByRoute r => is_call_control r
  | ByExpress _ => false
  end.

Definition answer_status (a : Answer) : Z :=
  match a with
  | ByRoute r => statusCode r
  | ByExpress status => status
  end.

End App.
Import App.

(* ================================================================== *)
(** ** Truthiness and [||] *)
(* ================================================================== *)

Module JsOps.

(** ToBoolean, on the values of the model. *)
Definition truthy (v : JsValue) : bool :=
  match v with
  | JUndefined | JNull => false
  | JBool b => b
  | JNum n => negb (n =? 0)%Z
  | JStr s => negb (String.eqb s EmptyString)
  | JArr _ | JObj _ | JError _ _ => true
  end.

(** [a || b] for operands already evaluated. *)
Definition js_or (a b : JsValue) : JsValue := if truthy a then a else b.

(** [process.env]: every variable that is set is a string. *)
Definition env_get (env : gmap string string) (k : string) : JsValue :=
  match env !! k with
  | Some s => JStr s
  | None => JUndefined
  end.

(** [v.k], which throws on [null] and [undefined]. *)
Definition member (v : JsValue) (k : string) : option JsValue :=
  if is_nullish v then None else Some (get_prop v k).

End JsOps.
Import JsOps.

(* ================================================================== *)
(** ** The service entry point: address, sockets, fatal errors *)
(* ================================================================== *)

Module Process.

(** [const port = process.env.PORT || serviceConfig.port || 3001]: the
    right operand of [||] is evaluated only when the left one is falsy. *)
Definition port (env : gmap string string) (serviceConfig : JsValue) : option JsValue :=
  if truthy (env_get env "PORT") then Some (env_get env "PORT")
  else match member serviceConfig "port" with
       | Some p => Some (js_or p (JNum 3001))
       | None => None
       end.

(** [const host = serviceConfig.host || '0.0.0.0'] *)
Definition host (serviceConfig : JsValue) : option JsValue :=
  match member serviceConfig "host" with
  | Some h => Some (js_or h (JStr "0.0.0.0"))
  | None => None
  end.

(** The two declarations in order; [None] when one of them throws. *)
Definition address (env : gmap string string) (serviceConfig : JsValue)
  : option (JsValue * JsValue) :=
  match port env serviceConfig with
  | Some p =>
      match host serviceConfig with
      | Some h => Some (p, h)
      | None => None
      end
  | None => None
  end.

(** A value that reached [process.on('uncaughtException')], seen through
    the two properties the handler reads of it. *)
Record Caught := { message_of : JsValue; stack_of : JsValue }.

(** What happens to the process: socket.io connections, events of
    connected clients, and the two fatal events.  A thrown [null] or
    [undefined] is [UncaughtException None]. *)
Inductive ProcessEvent :=
| Connection (id : string)
| FromClient (id : string) (e : SocketEvent)
| UncaughtException (error : option Caught)
| UnhandledRejection (reason promise : JsValue).

(** [process.exit(code)], or the end the runtime puts to a process whose
    [uncaughtException] listener throws. *)
Inductive Exit :=
| Exited (code : Z)
| ListenerThrew.

Record IoState := {
  live : gset string;
  outbox : gmap string (list Emit);
  io_world : World;
  exit_status : option Exit
}.

Definition io_start (w : World) : IoState :=
  {| live := ∅; outbox := ∅; io_world := w; exit_status := None |}.

Definition sent_to (st : IoState) (id : string) : list Emit :=
  match outbox st !! id with Some es => es | None => [] end.

Definition conn_of (st : IoState) (id : string) : Conn :=
  {| socket_id := id; emitted := sent_to st id; conn_world := io_world st |}.

Definition is_disconnect (e : SocketEvent) : bool :=
  match e with Disconnect => true | _ => false end.

Definition io_step (st : IoState) (ev : ProcessEvent) : IoState :=
  match exit_status st with
  | Some _ => st
  | None =>
      match ev with
      | Connection id =>
          let c := on_connection id (io_world st) in
          {| live := {[ id ]} ∪ live st;
             outbox := <[id := emitted c]> (outbox st);
             io_world := conn_world c;
             exit_status := None |}
      | FromClient id e =>
          if bool_decide (id ∈ live st) then
            let c := socket_step (conn_of st id) e in
            {| live := if is_disconnect e then live st ∖ {[ id ]} else live st;
               outbox := <[id := emitted c]> (outbox st);
               io_world := conn_world c;
               exit_status := None |}
          else st
      | UncaughtException None =>
          {| live := live st; outbox := outbox st; io_world := io_world st;
             exit_status := Some ListenerThrew |}
      | UncaughtException (Some error) =>
          {| live := live st; outbox := outbox st;
             io_world :=
               log_line Error "Uncaught exception"
                 (JObj [("error", message_of error); ("stack", stack_of error)])
                 (io_world st);
             exit_status := Some (Exited 1) |}
      | UnhandledRejection reason promise =>
          {| live := live st; outbox := outbox st;
             io_world :=
               log_line Error "Unhandled rejection"
                 (JObj [("reason", reason); ("promise", promise)])
                 (io_world st);
             exit_status := Some (Exited 1) |}
      end
  end.

Definition io_run (st : IoState) (evs : list ProcessEvent) : IoState :=
  fold_left io_step evs st.

Definition is_fatal (ev : ProcessEvent) : bool :=
  match ev with
  | UncaughtException _ | UnhandledRejection _ _ => true
  | _ => false
  end.

(** The socket an event belongs to. *)
Definition socket_of (ev : ProcessEvent) : option string :=
  match ev with
  | Connection id | FromClient id _ => Some id
  | _ => None
  end.

(** How the process ends on a fatal event. *)
Definition exit_on (ev : ProcessEvent) : option Exit :=
  match ev with
  | UncaughtException None => Some ListenerThrew
  | UncaughtException (Some _) | UnhandledRejection _ _ => Some (Exited 1)
  | _ => None
  end.

Definition first_exit (evs : list ProcessEvent) : option Exit :=
  match List.find is_fatal evs with
  | Some ev => exit_on ev
  | None => None
  end.

Definition is_frame_of (id : string) (ev : ProcessEvent) : bool :=
  match ev with
  | FromClient id' (VoiceStream _) => String.eqb id' id
  | _ => false
  end.

(** Sample state: two sockets connected, one frame received on the first. *)
Definition two_clients : IoState :=
  io_run (io_start world0) [Connection "a"; Connection "b"; FromClient "a" (VoiceStream JNull)].

End Process.
Import Process.

(* ================================================================== *)
(** ** The setup script, [scripts/setup.js] *)
(* ================================================================== *)

Module Setup.

(** The file system below the working directory: a path is the list of
    its segments, the working directory itself is the empty path and is
    always there. *)
Inductive Node :=
| File (content : string)
| Dir.

Abbreviation Path := (list string).
Abbreviation Fs := (gmap (list string) Node).

(** [path.join], POSIX separators. *)
Definition join (p : Path) : string := String.concat "/" p.

(** The faults of the two [fs] calls that can throw here. *)
Inductive FsFault :=
| NoSuchFile (p : Path)
| NotAFile (p : Path)
| NotADirectory (p : Path).

(** What the script does not decide: what a shell command does (whether
    [execSync] returns, and the file system it leaves) and the message the
    runtime gives a fault. *)
Record Os := {
  shell : string -> Fs -> bool * Fs;
  fault_message : FsFault -> string
}.

Inductive Stream := Stdout | Stderr | Question.

Record Sys := {
  fs : Fs;
  out : list (Stream * string);
  ran : list string;
  closed : bool;
  exit_code : option Z
}.

Definition boot (f : Fs) : Sys :=
  {| fs := f; out := []; ran := []; closed := false; exit_code := None |}.

Definition esc : string := String (Ascii.ascii_of_nat 27) EmptyString.
Definition green : string := esc ++ "[32m".
Definition yellow : string := esc ++ "[33m".
Definition blue : string := esc ++ "[34m".
Definition magenta : string := esc ++ "[35m".
Definition cyan : string := esc ++ "[36m".
Definition reset : string := esc ++ "[0m".
Definition bold : string := esc ++ "[1m".

Definition emit_line (s : Stream) (text : string) (st : Sys) : Sys :=
  {| fs := fs st; out := (out st ++ [(s, text)])%list; ran := ran st;
     closed := closed st; exit_code := exit_code st |}.

Definition console_log := emit_line Stdout.
Definition console_error := emit_line Stderr.

Definition with_fs (f : Fs) (st : Sys) : Sys :=
  {| fs := f; out := out st; ran := ran st; closed := closed st;
     exit_code := exit_code st |}.

(** [fs.existsSync] *)
Definition existsSync (p : Path) (f : Fs) : bool :=
  match f !! p with Some _ => true | None => false end.

(** [fs.copyFileSync(src, dest)], for a destination directly below the
    working directory. *)
Definition copyFileSync (src dest : Path) (f : Fs) : FsFault + Fs :=
  match f !! src with
  | Some (File content) => inr (<[dest := File content]> f)
  | Some Dir => inl (NotAFile src)
  | None => inl (NoSuchFile src)
  end.

(** The non-empty prefixes of a path, shortest first. *)
Fixpoint ancestors_from (above : Path) (p : Path) : list Path :=
  match p with
  | [] => []
  | seg :: rest => (above ++ [seg])%list :: ancestors_from (above ++ [seg])%list rest
  end.

Definition ancestors (p : Path) : list Path := ancestors_from [] p.

Definition is_file (f : Fs) (p : Path) : bool :=
  match f !! p with Some (File _) => true | _ => false end.

(** [fs.mkdirSync(p, { recursive: true })]: it fails on a file in the
    way, the fault naming the path it was asked for, and otherwise leaves
    a directory at the path and at every prefix. *)
Definition ensure_dir (acc : Fs) (q : Path) : Fs :=
  match acc !! q with
  | Some _ => acc
  | None => <[q := Dir]> acc
  end.

Definition mkdirSync_recursive (p : Path) (f : Fs) : FsFault + Fs :=
  match List.find (is_file f) (ancestors p) with
  | Some _ => inl (NotADirectory p)
  | None => inr (fold_left ensure_dir (ancestors p) f)
  end.

(** [runCommand(command)] *)
Definition runCommand (os : Os) (command : string) (st : Sys) : bool * Sys :=
  let st1 := console_log (blue ++ "Running: " ++ command ++ reset) st in
  let '(ok, f') := shell os command (fs st1) in
  let st2 := {| fs := f'; out := out st1; ran := (ran st1 ++ [command])%list;
                closed := closed st1; exit_code := exit_code st1 |} in
  if ok then (true, st2)
  else (false, console_error (yellow ++ "Failed to execute: " ++ command ++ reset) st2).

(** [copyEnvFile()] *)
Definition copyEnvFile (os : Os) (st : Sys) : bool * Sys :=
  if negb (existsSync [".env"] (fs st)) then
    match copyFileSync [".env.example"] [".env"] (fs st) with
    | inr f' =>
        (true, console_log (green ++ "Created .env file from .env.example" ++ reset)
                 (with_fs f' st))
    | inl fault =>
        (false, console_error
                  (yellow ++ "Failed to create .env file: " ++ fault_message os fault ++ reset)
                  st)
    end
  else (true, console_log (blue ++ ".env file already exists" ++ reset) st).

Definition data_dirs : list Path :=
  [ ["services"; "document-parser"; "data"; "documents"];
    ["services"; "voice-ai"; "logs"];
    ["services"; "lead-scoring"; "data"];
    ["services"; "recommendation-engine"; "data"] ].

(** The loop of [createDataDirs()] over the directories left to do; a
    fault ends it, with what was done before kept. *)
Fixpoint create_dirs (dirs : list Path) (st : Sys) : option FsFault * Sys :=
  match dirs with
  | [] => (None, st)
  | dir :: dirs' =>
      if negb (existsSync dir (fs st)) then
        match mkdirSync_recursive dir (fs st) with
        | inr f' =>
            create_dirs dirs'
              (console_log (green ++ "Created directory: " ++ join dir ++ reset)
                 (with_fs f' st))
        | inl fault => (Some fault, st)
        end
      else create_dirs dirs' st
  end.

(** [createDataDirs()] *)
Definition createDataDirs (st : Sys) : option FsFault * Sys :=
  create_dirs data_dirs st.

Definition lower (c : Ascii.ascii) : Ascii.ascii :=
  let n := Ascii.nat_of_ascii c in
  if (65 <=? n)%nat && (n <=? 90)%nat then Ascii.ascii_of_nat (n + 32) else c.

(** [toLowerCase], on the ASCII letters; other bytes are left as they are. *)
Fixpoint toLowerCase (s : string) : string :=
  match s with
  | EmptyString => EmptyString
  | String c s' => String (lower c) (toLowerCase s')
  end.

(** [answer.toLowerCase().startsWith('y')] *)
Definition says_yes (answer : string) : bool :=
  String.prefix "y" (toLowerCase answer).

(** [prompt(question)] answered with [answer]. *)
Definition prompt (question : string) (st : Sys) : Sys :=
  emit_line Question question st.

Definition python_services : list string :=
  ["document-parser"; "lead-scoring"; "recommendation-engine"].

(** The loop over [pythonServices]. *)
Fixpoint install_services (os : Os) (services : list string) (st : Sys) : Sys :=
  match services with
  | [] => st
  | service :: services' =>
      let reqPath := ["services"; service; "requirements.txt"] in
      if existsSync reqPath (fs st) then
        let st1 := console_log
          (nl ++ magenta ++ "Installing Python dependencies for " ++ service ++ "..." ++ reset) st in
        install_services os services' (snd (runCommand os ("pip install -r " ++ join reqPath) st1))
      else install_services os services' st
  end.

Definition closing_lines : list string :=
  [ nl ++ green ++ bold ++ "Setup completed successfully!" ++ reset;
    nl ++ "You can start the services individually:";
    cyan ++ "- Customer Portal: " ++ reset ++ "cd services/customer-portal && npm run dev";
    cyan ++ "- Voice AI Service: " ++ reset ++ "cd services/voice-ai && npm run dev";
    cyan ++ "- Document Parser: " ++ reset ++ "cd services/document-parser/src && python -m uvicorn main:app --reload";
    cyan ++ "- Lead Scoring: " ++ reset ++ "cd services/lead-scoring/src && python -m uvicorn main:app --reload" ].

Definition rl_close (st : Sys) : Sys :=
  {| fs := fs st; out := out st; ran := ran st; closed := true;
     exit_code := exit_code st |}.

Definition process_exit (code : Z) (st : Sys) : Sys :=
  {| fs := fs st; out := out st; ran := ran st; closed := closed st;
     exit_code := Some code |}.

(** [setup()], with the two answers the user types. *)
Definition setup (os : Os) (installPython startDocker : string) (st : Sys) : Sys :=
  let st1 := snd (copyEnvFile os st) in
  match createDataDirs st1 with
  | (Some fault, st2) =>
      process_exit 1
        (rl_close
           (console_error (yellow ++ "Setup failed: " ++ fault_message os fault ++ reset) st2))
  | (None, st2) =>
      let st3 := console_log (nl ++ magenta ++ "Installing Node.js dependencies..." ++ reset) st2 in
      let '(ok, st4) := runCommand os "npm install" st3 in
      let st5 := if ok
                 then console_log (green ++ "Successfully installed Node.js dependencies" ++ reset) st4
                 else st4 in
      let st6 := prompt (nl ++ cyan ++ "Do you want to install Python dependencies? (y/n): " ++ reset) st5 in
      let st7 :=
        if says_yes installPython then
          let a := console_log (nl ++ magenta ++ "Installing Python dependencies..." ++ reset) st6 in
          let b := snd (runCommand os "pip install -r requirements.txt" a) in
          install_services os python_services b
        else st6 in
      let st8 := prompt (nl ++ cyan ++ "Do you want to start Docker services? (y/n): " ++ reset) st7 in
      let st9 :=
        if says_yes startDocker then
          let a := console_log (nl ++ magenta ++ "Starting Docker services..." ++ reset) st8 in
          snd (runCommand os "docker-compose -f infra/docker-compose.yml up -d" a)
        else st8 in
      rl_close (fold_left (fun acc line => console_log line acc) closing_lines st9)
  end.

(** Every entry lies in a directory: no entry sits below a file or below
    nothing. *)
Definition parent (p : Path) : Path := removelast p.

Definition well_formed (f : Fs) : Prop :=
  forall p n, f !! p = Some n -> parent p <> [] -> f !! parent p = Some Dir.

(** [f'] holds all of [f] and, beyond it, directories only. *)
Definition grows (f f' : Fs) : Prop :=
  f ⊆ f' /\
  forall q n, f' !! q = Some n -> f !! q = Some n \/ (f !! q = None /\ n = Dir).

Definition is_pip_of_service (command : string) : bool :=
  String.prefix "pip install -r services/" command.

Definition docker_command : string := "docker-compose -f infra/docker-compose.yml up -d".

(** The commands [setup] runs once the directories are there, given the
    two answers and the service installations [pips]. *)
Definition commands_for (installPython startDocker : string) (pips : list string)
  : list string :=
  ("npm install" ::
   (if says_yes installPython then "pip install -r requirements.txt" :: pips else []) ++
   (if says_yes startDocker then [docker_command] else []))%list.

(** A file system in which a file bears the name of a data directory. *)
Definition file_at_full_path : Fs :=
  {[ ["services"] := Dir;
     ["services"; "voice-ai"] := Dir;
     ["services"; "voice-ai"; "logs"] := File "not a directory" ]}.

(** A file system in which a file sits where a directory is wanted. *)
Definition blocked_fs : Fs :=
  {[ [".env"] := File "PORT=3000";
     ["services"] := File "not a directory" ]}.

(** A shell that runs nothing and an operating system around it. *)
Definition idle_os (succeeds : bool) : Os :=
  {| shell := fun _ f => (succeeds, f);
     fault_message := fun _ => "fault" |}.

Definition sample_fs : Fs :=
  {[ [".env.example"] := File "PORT=3000";
     ["services"] := Dir;
     ["services"; "voice-ai"] := Dir ]}.

End Setup.

(* ================================================================== *)
(** * Properties of the HTTP routes *)
(* ================================================================== *)

Section JsonValues.

(** Induction over values that reaches inside arrays and objects. *)
Lemma JsValue_nested_ind (P : JsValue -> Prop) :
  P JUndefined -> P JNull -> (forall b, P (JBool b)) -> (forall n, P (JNum n)) ->
  (forall s, P (JStr s)) ->
  (forall xs, Forall P xs -> P (JArr xs)) ->
  (forall ps, Forall (fun kv => P (snd kv)) ps -> P (JObj ps)) ->
  (forall nm msg, P (JError nm msg)) ->
  forall v, P v.
Proof.
  intros Hu Hn Hb Hz Hs Ha Ho He.
  fix IH 1. intros [| | b | n | s | xs | ps | nm msg].
  - exact Hu.
  - exact Hn.
  - apply Hb.
  - apply Hz.
  - apply Hs.
  - apply Ha. induction xs as [|x xs IHxs]; constructor; [apply IH | exact IHxs].
  - apply Ho. induction ps as [|[k x] ps IHps]; constructor; [apply IH | exact IHps].
  - apply He.
Qed.

(** [JSON.stringify] loses nothing of a JSON value. *)
Lemma toJSON_is_json (v : JsValue) : is_json v = true -> toJSON v = v.
Proof.
  induction v as [| | b | n | s | xs IHxs | ps IHps | nm msg] using JsValue_nested_ind;
    simpl; intros Hj; try reflexivity; try discriminate.
  - f_equal. induction IHxs as [|x xs Hx _ IH]; simpl in *; [reflexivity|].
    apply andb_prop in Hj as [Hjx Hjxs].
    rewrite (Hx Hjx), (IH Hjxs).
    destruct x; simpl in *; try reflexivity; discriminate.
  - f_equal. induction IHps as [|[k x] ps Hx _ IH]; simpl in *; [reflexivity|].
    apply andb_prop in Hj as [Hjx Hjps].
    rewrite (Hx Hjx), (IH Hjps).
    destruct x; simpl in *; try reflexivity; discriminate.
Qed.

Lemma is_json_defined (v : JsValue) : is_json v = true -> is_undefined v = false.
Proof. destruct v; simpl; congruence. Qed.

(** Induction over parsed values that reaches inside arrays and objects. *)
Lemma Json_nested_ind (P : Json -> Prop) :
  P JsonNull -> (forall b, P (JsonBool b)) -> (forall n, P (JsonNum n)) ->
  (forall s, P (JsonStr s)) ->
  (forall xs, Forall P xs -> P (JsonArr xs)) ->
  (forall ps, Forall (fun kv => P (snd kv)) ps -> P (JsonObj ps)) ->
  forall j, P j.
Proof.
  intros Hn Hb Hz Hs Ha Ho.
  fix IH 1. intros [| b | n | s | xs | ps].
  - exact Hn.
  - apply Hb.
  - apply Hz.
  - apply Hs.
  - apply Ha. induction xs as [|x xs IHxs]; constructor; [apply IH | exact IHxs].
  - apply Ho. induction ps as [|[k x] ps IHps]; constructor; [apply IH | exact IHps].
Qed.

(** A parsed value is a JSON value. *)
Lemma to_js_is_json (j : Json) : is_json (to_js j) = true.
Proof.
  induction j as [| b | n | s | xs IHxs | ps IHps] using Json_nested_ind;
    try reflexivity; cbn [to_js is_json].
  - induction IHxs as [|x xs Hx _ IH]; [reflexivity|].
    cbn [List.map forallb]. rewrite Hx. exact IH.
  - induction IHps as [|[k x] ps Hx _ IH]; [reflexivity|].
    cbn [snd] in Hx. rewrite Hx. exact IH.
Qed.

(** What the parsers let through is a JSON value, and neither [null] nor
    [undefined]. *)
Lemma body_parsers_accepts (wire : Wire) (b : JsValue) :
  body_parsers wire = inr b -> is_json b = true /\ is_nullish b = false.
Proof.
  destruct wire as [| j | | fields].
  - intros [= <-]. split; reflexivity.
  - destruct j as [| bb | n | s | xs | ps]; try discriminate; intros H.
    + assert (b = to_js (JsonArr xs)) as -> by (cbn [body_parsers] in H; congruence).
      split; [apply to_js_is_json | reflexivity].
    + assert (b = to_js (JsonObj ps)) as -> by (cbn [body_parsers] in H; congruence).
      split; [apply to_js_is_json | reflexivity].
  - discriminate.
  - intros H.
    assert (b = to_js (JsonObj fields)) as -> by (cbn [body_parsers] in H; congruence).
    split; [apply to_js_is_json | reflexivity].
Qed.

Lemma mounted_accepts (e : Endpoint) (wire : Wire) (b : JsValue) (w : World) :
  body_parsers wire = inr b ->
  fst (mounted e wire w) =
  ByRoute (response (handler_of e) {| params := params_of e; body := b |} w).
Proof. unfold mounted, serve. intros ->. reflexivity. Qed.

Lemma mounted_refuses (e : Endpoint) (wire : Wire) (status : Z) (w : World) :
  body_parsers wire = inl status -> fst (mounted e wire w) = ByExpress status.
Proof. unfold mounted. intros ->. reflexivity. Qed.

(** A property read of a JSON value is [undefined] or a JSON value. *)
Lemma get_prop_json (b : JsValue) (k : string) :
  is_json b = true -> get_prop b k = JUndefined \/ is_json (get_prop b k) = true.
Proof.
  destruct b as [| | bb | n | s | xs | ps | nm msg]; cbn [get_prop]; auto.
  cbn [is_json]. induction ps as [|[k' x] ps IH]; cbn [assoc]; [auto|].
  intros H. apply andb_prop in H as [Hx Hps].
  destruct (String.eqb k k'); [right; exact Hx | apply IH, Hps].
Qed.

End JsonValues.

Section Handlers.

(** A body that is neither [null] nor [undefined] passes the
    destructuring check. *)
Lemma destructurable_ok (first : string) (b : JsValue) (st : St) :
  is_nullish b = false -> destructurable first b st = (Done tt, st).
Proof. unfold destructurable. intros ->. reflexivity. Qed.

Lemma destructurable_throws (first : string) (b : JsValue) (st : St) :
  is_nullish b = true ->
  destructurable first b st = (Thrown (destructure_error first b), st).
Proof. unfold destructurable. intros ->. reflexivity. Qed.

(** No handler lets an exception escape: every [try] has its [catch], and
    the [catch] blocks only log and answer. *)
Lemma handlers_catch_everything (c : Call) (w : World) :
  fst (fst (respond (handler_of (endpoint c)) (request_of c) w)) = Done tt.
Proof.
  destruct c as [[| | id | id | |] b]; unfold respond; simpl; try reflexivity;
    unfold post_conversations, post_webhooks_twilio, post_livekit_token,
      try_catch, bind; simpl;
    destruct (is_nullish b) eqn:E;
    try (rewrite (destructurable_ok _ _ _ E)); try (rewrite (destructurable_throws _ _ _ E));
    reflexivity.
Qed.

End Handlers.

Section Conversations.

(** C8. Every [POST /conversations] whose body is an object, the fields
    customerId, phoneNumber and initialContext present or not, is answered
    201 with the body fields conversationId, status and message, in that
    order; the id is conv- followed by the clock reading. *)
Theorem post_conversations_created
    (ps : list (string * string)) (props : list (string * JsValue)) (w : World) :
  let r := response post_conversations {| params := ps; body := JObj props |} w in
  statusCode r = 201%Z /\
  body_fields r = ["conversationId"; "status"; "message"] /\
  body_field r "conversationId" = JStr ("conv-" ++ show_int (clock w (reads w))) /\
  body_field r "status" = JStr "initialized" /\
  body_field r "message" = JStr "Voice AI conversation initiated".
Proof. repeat split. Qed.

(** The creation route keeps nothing: the world after it differs from the
    world before by one log line and one clock reading. *)
Lemma post_conversations_stores_nothing
    (ps : list (string * string)) (props : list (string * JsValue)) (w : World) :
  world_after post_conversations {| params := ps; body := JObj props |} w =
  {| log := log w ++
       [{| level := Info; message := "Initializing new conversation";
           meta := JObj [("customerId", get_prop (JObj props) "customerId");
                         ("phoneNumber", get_prop (JObj props) "phoneNumber")] |}];
     clock := clock w;
     reads := S (reads w) |}.
Proof. reflexivity. Qed.

(** Two creations for the same customer and phone number are both
    answered 201: the route knows no conflict. *)
Example post_conversations_twice_same_phone :
  let c := {| endpoint := PostConversations;
              payload_in := JObj [("customerId", JStr "c-1");
                                  ("phoneNumber", JStr "+15551234567");
                                  ("initialContext", JStr "quote")] |} in
  List.map statusCode (fst (serve_all [c; c] world0)) = [201%Z; 201%Z].
Proof. reflexivity. Qed.

(** The answer of [GET /conversations/:id], whatever came before. *)
Lemma get_conversation_response (id : string) (b : JsValue) (w : World) :
  fst (serve {| endpoint := GetConversation id; payload_in := b |} w) =
  json_response 200
    (JObj [("conversationId", JStr id);
           ("status", JStr "active");
           ("durationSeconds", JNum 120);
           ("transcript",
            toJSON (mock_transcript (clock w (reads w)) (clock w (S (reads w)))
                      (clock w (S (S (reads w))))))]).
Proof.
  reflexivity.
Qed.

(** C1, as stated, fails: after one conversation was created, the id
    [no-such-conversation] is none of the ids handed out, and the request
    for it is answered 200, not 404. *)
Lemma get_conversation_unknown_not_404 :
  let history := [{| endpoint := PostConversations;
                     payload_in := JObj [("customerId", JStr "c-1");
                                         ("phoneNumber", JStr "+15551234567");
                                         ("initialContext", JStr "quote")] |}] in
  let r := answer_after history
             {| endpoint := GetConversation "no-such-conversation";
                payload_in := JObj [] |} world0 in
  known_ids history world0 = [JStr "conv-1700000000000"] /\
  ~ In (JStr "no-such-conversation") (known_ids history world0) /\
  statusCode r = 200%Z /\
  statusCode r <> 404%Z.
Proof.
  cbv zeta. split; [reflexivity|]. split.
  - intros [H|[]]. discriminate H.
  - split; [reflexivity | discriminate].
Qed.

(** C1, amended. Every [GET /conversations/:id], for an id the service
    handed out or for any other, after any history of calls, is answered
    200 with the body fields conversationId, status, durationSeconds and
    transcript: the id is echoed, the status is active, the duration 120
    and the transcript has three turns.  No request is answered 404. *)
Theorem get_conversation_always_200
    (history : list Call) (id : string) (b : JsValue) (w : World) :
  let r := answer_after history {| endpoint := GetConversation id; payload_in := b |} w in
  statusCode r = 200%Z /\
  statusCode r <> 404%Z /\
  body_fields r = ["conversationId"; "status"; "durationSeconds"; "transcript"] /\
  body_field r "conversationId" = JStr id /\
  body_field r "status" = JStr "active" /\
  body_field r "durationSeconds" = JNum 120 /\
  (exists t1 t2 t3, body_field r "transcript" = JArr [t1; t2; t3]).
Proof.
  cbv zeta. unfold answer_after. rewrite get_conversation_response.
  repeat apply conj; try reflexivity; try discriminate.
  eexists _, _, _. reflexivity.
Qed.

(** The answer of [POST /conversations/:id/end]. *)
Lemma post_conversation_end_response (id : string) (b : JsValue) (w : World) :
  fst (serve {| endpoint := PostConversationEnd id; payload_in := b |} w) =
  json_response 200
    (JObj [("conversationId", JStr id);
           ("status", JStr "completed");
           ("durationSeconds", JNum 305);
           ("summary", JStr "Customer inquired about business insurance options for a small retail shop.");
           ("nextSteps", JStr "Follow up with customer to collect additional business details.");
           ("documentationNeeded",
            JArr [JStr "Business license"; JStr "Previous insurance policy"])]).
Proof.
  reflexivity.
Qed.

(** C9. For every id, after any history of calls (the empty one and
    histories that never created a conversation included),
    [POST /conversations/:id/end] is answered 200 with status completed
    and durationSeconds 305, never 404 or 400; the answer is the same
    after any two histories, in any two worlds and with any two bodies: no
    state is consulted. *)
Theorem post_conversation_end_unconditional
    (history : list Call) (id : string) (b : JsValue) (w : World) :
  let r := answer_after history {| endpoint := PostConversationEnd id; payload_in := b |} w in
  statusCode r = 200%Z /\
  body_field r "conversationId" = JStr id /\
  body_field r "status" = JStr "completed" /\
  body_field r "durationSeconds" = JNum 305 /\
  statusCode r <> 404%Z /\ statusCode r <> 400%Z /\
  (forall history' b' w',
     answer_after history' {| endpoint := PostConversationEnd id; payload_in := b' |} w' = r).
Proof.
  cbv zeta. unfold answer_after. rewrite post_conversation_end_response.
  repeat apply conj; try discriminate;
    [reflexivity .. | intros history' b' w'; apply post_conversation_end_response].
Qed.

End Conversations.

Section Webhook.

(** The body sent on success opens with a line break and six spaces: the
    XML declaration is not its first character. *)
Lemma twiml_leading_whitespace :
  String.prefix (nl ++ "      <?xml") twiml = true /\
  String.prefix "<?xml" twiml = false.
Proof. split; reflexivity. Qed.

(** What the handler answers, the [catch] block included: call-control
    markup for a body it can destructure, the JSON error for [null] and
    [undefined]. *)
Lemma twilio_webhook_handler_response
    (ps : list (string * string)) (b : JsValue) (w : World) :
  response post_webhooks_twilio {| params := ps; body := b |} w =
  if is_nullish b then webhook_failure_response else twiml_response.
Proof.
  unfold response, respond, post_webhooks_twilio, try_catch, bind; simpl.
  destruct (is_nullish b) eqn:E.
  - rewrite (destructurable_throws _ _ _ E). reflexivity.
  - rewrite (destructurable_ok _ _ _ E). reflexivity.
Qed.

(** C2, as stated, fails: a webhook request whose body is the JSON text
    [null], whose processing fails in the body parser, is answered by
    Express with status 400 and its error page; a text that is not JSON
    fares the same.  Neither answer is call-control markup. *)
Lemma twilio_webhook_rejected_body_not_markup :
  let a := fst (mounted PostWebhooksTwilio (JsonText JsonNull) world0) in
  let a' := fst (mounted PostWebhooksTwilio BadJsonText world0) in
  a = ByExpress 400 /\ answer_is_call_control a = false /\
  a' = ByExpress 400 /\ answer_is_call_control a' = false.
Proof. repeat apply conj; reflexivity. Qed.

(** C2, amended. A webhook request whose body the parsers let through,
    whatever it holds, is answered by the route with status 200 and the
    TwiML document served as [text/xml]; a request the body parser
    refuses is answered by Express with the parser's error status, not
    with call-control markup.  There is no fallback document: the
    handler's own [catch] block answers 500 with the JSON body
    [{error: 'Failed to process webhook'}], and is reached only by a
    [null] or [undefined] body, which the parsers never hand over. *)
Theorem twilio_webhook_response
    (wire : Wire) (ps : list (string * string)) (b : JsValue) (w : World) :
  let a := fst (mounted PostWebhooksTwilio wire w) in
  a = (match body_parsers wire with
       | inl status => ByExpress status
       | inr _ => ByRoute twiml_response
       end) /\
  answer_is_call_control a =
    (match body_parsers wire with inl _ => false | inr _ => true end) /\
  response post_webhooks_twilio {| params := ps; body := b |} w =
    (if is_nullish b then webhook_failure_response else twiml_response).
Proof.
  cbv zeta. destruct (body_parsers wire) as [status|b'] eqn:E.
  - rewrite (mounted_refuses _ _ _ w E).
    repeat apply conj; [reflexivity | reflexivity | apply twilio_webhook_handler_response].
  - destruct (body_parsers_accepts wire b' E) as [_ Hn].
    rewrite (mounted_accepts _ _ _ w E). cbn [handler_of params_of].
    rewrite twilio_webhook_handler_response, Hn.
    repeat apply conj; [reflexivity | reflexivity | apply twilio_webhook_handler_response].
Qed.

End Webhook.

Section Token.

(** The answer of [POST /livekit/token]: the mock token for every body
    that can be destructured, with [room] and [identity] as read from it. *)
Lemma post_livekit_token_response
    (ps : list (string * string)) (b : JsValue) (w : World) :
  response post_livekit_token {| params := ps; body := b |} w =
  if is_nullish b then token_failure_response
  else json_response 200
         (toJSON (JObj [("token", JStr "mock-livekit-token-xyz");
                        ("room", get_prop b "room");
                        ("identity", get_prop b "identity");
                        ("expiresIn", JNum 3600)])).
Proof.
  unfold response, respond, post_livekit_token, try_catch, bind; simpl.
  destruct (is_nullish b) eqn:E.
  - rewrite (destructurable_throws _ _ _ E). reflexivity.
  - rewrite (destructurable_ok _ _ _ E). reflexivity.
Qed.

(** C3, as stated, fails: the request with the empty identity and the
    empty room is answered 200 with a token, not 400. *)
Lemma livekit_token_empty_identity_room_accepted :
  let r := response post_livekit_token
             {| params := [];
                body := JObj [("identity", JStr EmptyString); ("room", JStr EmptyString)] |}
             world0 in
  statusCode r = 200%Z /\
  statusCode r <> 400%Z /\
  body_field r "token" = JStr "mock-livekit-token-xyz" /\
  body_field r "identity" = JStr EmptyString /\
  body_field r "room" = JStr EmptyString.
Proof. repeat apply conj; try reflexivity; discriminate. Qed.

(** C3, amended. For every token request whose body the parsers let
    through, identity and room empty, missing or of any value, the route
    answers 200 with the token [mock-livekit-token-xyz], expiresIn 3600,
    and room and identity as given in the request (absent where the
    request has none): nothing is validated, and the route never answers
    400.  A request the body parser refuses is answered by Express with
    the parser's error status and does not reach the route. *)
Theorem livekit_token_never_validates (wire : Wire) (w : World) :
  match body_parsers wire with
  | inl status => fst (mounted PostLivekitToken wire w) = ByExpress status
  | inr b =>
      exists r,
        fst (mounted PostLivekitToken wire w) = ByRoute r /\
        statusCode r = 200%Z /\
        body_field r "token" = JStr "mock-livekit-token-xyz" /\
        body_field r "room" = get_prop b "room" /\
        body_field r "identity" = get_prop b "identity" /\
        body_field r "expiresIn" = JNum 3600
  end.
Proof.
  destruct (body_parsers wire) as [status|b] eqn:E;
    [exact (mounted_refuses _ _ _ w E)|].
  destruct (body_parsers_accepts wire b E) as [Hj Hn].
  eexists. split; [exact (mounted_accepts _ _ _ w E)|].
  cbn [handler_of params_of]. rewrite post_livekit_token_response, Hn.
  destruct (get_prop_json b "room" Hj) as [Hr|Hr];
    destruct (get_prop_json b "identity" Hj) as [Hi|Hi];
    try rewrite Hr; try rewrite Hi; cbn [toJSON is_undefined];
    rewrite ?(is_json_defined _ Hr), ?(is_json_defined _ Hi),
            ?(toJSON_is_json _ Hr), ?(toJSON_is_json _ Hi);
    repeat apply conj; reflexivity.
Qed.

(** The amended claim on a form and on a JSON array: the one without a
    room, the other without either property. *)
Example livekit_token_partial_requests :
  List.map (fun wire => fst (mounted PostLivekitToken wire world0))
    [FormText [("identity", JsonStr EmptyString)]; JsonText (JsonArr [JsonNum 1])]
  = [ByRoute (json_response 200
                (JObj [("token", JStr "mock-livekit-token-xyz");
                       ("identity", JStr EmptyString); ("expiresIn", JNum 3600)]));
     ByRoute (json_response 200
                (JObj [("token", JStr "mock-livekit-token-xyz"); ("expiresIn", JNum 3600)]))].
Proof. reflexivity. Qed.

(** C7. A token request whose body is an object with the JSON values
    [identity] and [room] is answered 200 with the body fields token,
    room, identity and expiresIn, in that order; room and identity are the
    values of the request, and expiresIn is 3600 (the handler has no
    setting for it: the value is the default in every deployment). *)
Theorem livekit_token_echoes
    (ps : list (string * string)) (props : list (string * JsValue))
    (identity room : JsValue) (w : World) :
  assoc "identity" props = Some identity ->
  assoc "room" props = Some room ->
  is_json identity = true ->
  is_json room = true ->
  let r := response post_livekit_token {| params := ps; body := JObj props |} w in
  statusCode r = 200%Z /\
  body_fields r = ["token"; "room"; "identity"; "expiresIn"] /\
  body_field r "token" = JStr "mock-livekit-token-xyz" /\
  body_field r "room" = room /\
  body_field r "identity" = identity /\
  body_field r "expiresIn" = JNum 3600.
Proof.
  intros Hi Hr Ji Jr. cbv zeta. rewrite post_livekit_token_response.
  cbn [is_nullish get_prop]. rewrite Hi, Hr.
  cbn [toJSON]. rewrite (is_json_defined _ Ji), (is_json_defined _ Jr).
  rewrite (toJSON_is_json _ Ji), (toJSON_is_json _ Jr).
  repeat apply conj; reflexivity.
Qed.

(** The theorem above at the request [{identity: 'agent-7', room: 'sales-42'}]. *)
Lemma livekit_token_echoes_witness :
  let props := [("identity", JStr "agent-7"); ("room", JStr "sales-42")] in
  let r := response post_livekit_token {| params := []; body := JObj props |} world0 in
  assoc "identity" props = Some (JStr "agent-7") /\
  assoc "room" props = Some (JStr "sales-42") /\
  statusCode r = 200%Z /\
  body_fields r = ["token"; "room"; "identity"; "expiresIn"] /\
  body_field r "token" = JStr "mock-livekit-token-xyz" /\
  body_field r "room" = JStr "sales-42" /\
  body_field r "identity" = JStr "agent-7" /\
  body_field r "expiresIn" = JNum 3600.
Proof.
  cbv zeta. split; [reflexivity|]. split; [reflexivity|].
  apply (livekit_token_echoes [] [("identity", JStr "agent-7"); ("room", JStr "sales-42")]
           (JStr "agent-7") (JStr "sales-42") world0); reflexivity.
Defined.

(** A field the request lacks is absent from the answer: [undefined] does
    not survive [JSON.stringify]. *)
Lemma livekit_token_missing_identity :
  body_fields (response post_livekit_token
                 {| params := []; body := JObj [("room", JStr "sales-42")] |} world0)
  = ["token"; "room"; "expiresIn"].
Proof. reflexivity. Qed.

End Token.

Section Socket.

(** Over a whole connection, the server has emitted one [aiResponse] per
    [voiceStream] frame received, and nothing else. *)
Lemma socket_run_emitted (es : list SocketEvent) (c : Conn) :
  emitted (socket_run c es) =
  (emitted c ++ repeat ai_response (length (filter is_voiceStream es)))%list.
Proof.
  revert c. induction es as [|e es IH]; intros c.
  - simpl. symmetry. apply app_nil_r.
  - unfold socket_run in *. cbn [fold_left]. rewrite IH.
    destruct e as [a | | nm a]; simpl; try reflexivity.
    rewrite <- app_assoc. reflexivity.
Qed.

(** C10. A [voiceStream] event makes the server emit exactly one event,
    [aiResponse] with the payload [{message: 'Voice data received'}]; the
    connection after the event is the same for any two audio payloads; and
    over any run of events the emitted list grows by one such answer per
    frame. *)
Theorem voiceStream_constant_response (c : Conn) (audio1 audio2 : JsValue) :
  emitted_by c (VoiceStream audio1) =
    [{| event := "aiResponse"; data := JObj [("message", JStr "Voice data received")] |}] /\
  socket_step c (VoiceStream audio1) = socket_step c (VoiceStream audio2) /\
  (forall es, emitted (socket_run c es) =
              (emitted c ++ repeat ai_response (length (filter is_voiceStream es)))%list).
Proof.
  repeat apply conj.
  - unfold emitted_by. simpl. apply drop_app_length.
  - reflexivity.
  - intros es. apply socket_run_emitted.
Qed.

End Socket.

(* ================================================================== *)
(** * Properties of the Session Registry *)
(* ================================================================== *)

Module RegistryProofs.
Import Registry.

Lemma evolves_refl (s : Session) : evolves s s.
Proof. split; auto. Qed.

Lemma evolves_trans (s1 s2 s3 : Session) :
  evolves s1 s2 -> evolves s2 s3 -> evolves s1 s3.
Proof.
  intros [c1 p1 i1 q1] [c2 p2 i2 q2]. split; [congruence | congruence | auto | lia].
Qed.

(** The state machine has no edge into [initializing]. *)
Lemma next_not_initializing (s s' : Status) (e : Event) :
  next s e = Ok s' -> s' <> initializing.
Proof. destruct s, e; simpl; intros H; inversion H; subst; discriminate. Qed.

Lemma next_all_not_initializing (es : list Event) (s s' : Status) :
  es <> [] -> next_all s es = Ok s' -> s' <> initializing.
Proof.
  revert s. induction es as [|e es IH]; intros s Hne H; [congruence|].
  simpl in H. destruct (next s e) as [s1|err] eqn:E; [|discriminate].
  destruct es as [|e' es'].
  - simpl in H. inversion H; subst. eapply next_not_initializing; eauto.
  - eapply IH; [discriminate | exact H].
Qed.

(** In a terminal state the state machine accepts only what leaves the
    state as it is. *)
Lemma next_terminal (s s' : Status) (e : Event) :
  is_terminal s = true -> next s e = Ok s' -> s' = s.
Proof. destruct s, e; simpl; intros T H; inversion H; subst; congruence. Qed.

Lemma has_live_intro (ch : Channel) (p : string) (m : gmap nat Session)
    (i : nat) (s : Session) :
  m !! i = Some s -> occupies ch p s = true -> has_live ch p m = true.
Proof.
  intros Hl Ho. unfold has_live. apply existsb_exists. exists s. split; [|exact Ho].
  apply list_elem_of_In, list_elem_of_fmap. exists (i, s). split; [reflexivity|].
  apply elem_of_map_to_list. exact Hl.
Qed.

Lemma fresh_id_unused (m : gmap nat Session) : m !! fresh (dom m) = None.
Proof. apply not_elem_of_dom, is_fresh. Qed.

Section Steps.

Variables (i : nat) (s : Session) (now : Z).

Lemma createSession_keeps ch p md r x r' :
  createSession ch p md now r = (x, r') ->
  sessions r !! i = Some s ->
  sessions r' !! i = Some s.
Proof.
  unfold createSession. intros H Hl.
  destruct (has_live ch p (sessions r)); inversion H; subst; clear H; [exact Hl|].
  simpl. rewrite lookup_insert_ne; [exact Hl|].
  intros E. rewrite <- E in Hl. rewrite fresh_id_unused in Hl. discriminate.
Qed.

Lemma appendUtterance_keeps sid sp txt r x r' :
  appendUtterance sid sp txt now r = (x, r') ->
  sessions r !! i = Some s ->
  exists s', sessions r' !! i = Some s' /\ evolves s s'.
Proof.
  unfold appendUtterance. intros H Hl.
  destruct (sessions r !! sid) as [s0|] eqn:E0.
  2:{ inversion H; subst. exists s. split; [exact Hl | apply evolves_refl]. }
  case_bool_decide; inversion H; subst; clear H.
  2:{ exists s. split; [exact Hl | apply evolves_refl]. }
  simpl. destruct (decide (sid = i)) as [->|Hne].
  - rewrite lookup_insert_eq. exists (bump_seq s0). split; [reflexivity|].
    assert (s0 = s) by congruence. subst s0.
    split; simpl; auto.
  - rewrite lookup_insert_ne by exact Hne.
    exists s. split; [exact Hl | apply evolves_refl].
Qed.

Lemma transition_keeps sid e r x r' :
  transition sid e now r = (x, r') ->
  sessions r !! i = Some s ->
  exists s', sessions r' !! i = Some s' /\ evolves s s'.
Proof.
  unfold transition. intros H Hl.
  destruct (sessions r !! sid) as [s0|] eqn:E0.
  2:{ inversion H; subst. exists s. split; [exact Hl | apply evolves_refl]. }
  destruct (next (status s0) e) as [st|err] eqn:En.
  2:{ inversion H; subst. exists s. split; [exact Hl | apply evolves_refl]. }
  destruct (is_terminal (status s0)); [destruct (redelivered s0 e)|];
    inversion H; subst; clear H.
  1,2: exists s; split; [exact Hl | apply evolves_refl].
  simpl. destruct (decide (sid = i)) as [->|Hne].
  - rewrite lookup_insert_eq. eexists. split; [reflexivity|].
    assert (s0 = s) by congruence. subst s0.
    split; simpl; auto.
    intros ->. exfalso. eapply next_not_initializing; eauto.
  - rewrite lookup_insert_ne by exact Hne.
    exists s. split; [exact Hl | apply evolves_refl].
Qed.

Lemma endSession_keeps sid why r x r' :
  endSession sid why now r = (x, r') ->
  sessions r !! i = Some s ->
  exists s', sessions r' !! i = Some s' /\ evolves s s'.
Proof.
  unfold endSession. intros H Hl. destruct why.
  2:{ eapply transition_keeps; eauto. }
  destruct (sessions r !! sid) as [s0|] eqn:E0.
  2:{ inversion H; subst. exists s. split; [exact Hl | apply evolves_refl]. }
  case_bool_decide.
  2:{ eapply transition_keeps; eauto. }
  destruct (transition sid EndRequested now r) as [[s1|err] r1] eqn:E1.
  - destruct (transition_keeps _ _ _ _ _ E1 Hl) as (s1' & Hl1 & Hev1).
    destruct (transition sid Drained now r1) as [x2 r2] eqn:E2.
    inversion H; subst.
    unfold transition in E2.
    destruct (sessions r1 !! sid) as [s2|] eqn:E3.
    2:{ inversion E2; subst. eauto. }
    destruct (next (status s2) Drained) as [st|err] eqn:En.
    2:{ inversion E2; subst. eauto. }
    destruct (is_terminal (status s2)); [destruct (redelivered s2 Drained)|];
      inversion E2; subst; clear E2; [eauto | eauto |].
    simpl. destruct (decide (sid = i)) as [->|Hne].
    + rewrite lookup_insert_eq. eexists. split; [reflexivity|].
      assert (s2 = s1') by congruence. subst s2.
      eapply evolves_trans; [exact Hev1|].
      split; simpl; auto.
      intros ->. exfalso. eapply next_not_initializing; eauto.
    + rewrite lookup_insert_ne by exact Hne. eauto.
  - inversion H; subst. eapply transition_keeps; eauto.
Qed.

Lemma apply_op_keeps o r :
  sessions r !! i = Some s ->
  exists s', sessions (snd (apply_op now o r)) !! i = Some s' /\ evolves s s'.
Proof.
  intros Hl. destruct o as [ch p md | sid sp txt | sid e | sid why]; simpl.
  - destruct (createSession ch p md now r) as [x r'] eqn:E. simpl.
    exists s. split; [eapply createSession_keeps; eauto | apply evolves_refl].
  - destruct (appendUtterance sid sp txt now r) as [x r'] eqn:E. simpl.
    eapply appendUtterance_keeps; eauto.
  - destruct (transition sid e now r) as [x r'] eqn:E. simpl.
    eapply transition_keeps; eauto.
  - destruct (endSession sid why now r) as [x r'] eqn:E. simpl.
    eapply endSession_keeps; eauto.
Qed.

End Steps.

(** Over any history, a session stays in the registry, on its channel and
    for its participant, and never returns to [initializing]. *)
Lemma run_keeps (ops : list (Z * Op)) (r : Registry) (i : nat) (s : Session) :
  sessions r !! i = Some s ->
  exists s', sessions (snd (run ops r)) !! i = Some s' /\ evolves s s'.
Proof.
  revert r s. induction ops as [|[now o] ops IH]; intros r s Hl.
  - exists s. split; [exact Hl | apply evolves_refl].
  - simpl. destruct (apply_op_keeps i s now o r Hl) as (s1 & Hl1 & Hev1).
    destruct (apply_op now o r) as [y r1]. simpl in Hl1.
    destruct (IH r1 s1 Hl1) as (s2 & Hl2 & Hev2).
    destruct (run ops r1) as [ys r2]. simpl in *.
    exists s2. split; [exact Hl2 | eapply evolves_trans; eauto].
Qed.

Section Sequence.

Variable sid : nat.

Lemma transition_next_seq sid' e now r x r' :
  transition sid' e now r = (x, r') -> next_seq sid r' = next_seq sid r.
Proof.
  unfold transition. intros H.
  destruct (sessions r !! sid') as [s0|] eqn:E0; [|inversion H; subst; reflexivity].
  destruct (next (status s0) e) as [st|err]; [|inversion H; subst; reflexivity].
  destruct (is_terminal (status s0)); [destruct (redelivered s0 e)|];
    inversion H; subst; clear H; [reflexivity | reflexivity |].
  unfold next_seq. simpl. destruct (decide (sid' = sid)) as [->|Hne].
  - rewrite lookup_insert_eq, E0. reflexivity.
  - rewrite lookup_insert_ne by exact Hne. reflexivity.
Qed.

Lemma endSession_next_seq sid' why now r x r' :
  endSession sid' why now r = (x, r') -> next_seq sid r' = next_seq sid r.
Proof.
  unfold endSession. intros H. destruct why.
  2:{ eapply transition_next_seq; eauto. }
  destruct (sessions r !! sid') as [s0|]; [|inversion H; subst; reflexivity].
  case_bool_decide.
  2:{ eapply transition_next_seq; eauto. }
  destruct (transition sid' EndRequested now r) as [[s1|err] r1] eqn:E1.
  - rewrite <- (transition_next_seq _ _ _ _ _ _ E1).
    eapply transition_next_seq; eauto.
  - inversion H; subst. eapply transition_next_seq; eauto.
Qed.

Lemma createSession_next_seq ch p md now r x r' :
  createSession ch p md now r = (x, r') -> next_seq sid r' = next_seq sid r.
Proof.
  unfold createSession. intros H.
  destruct (has_live ch p (sessions r)); inversion H; subst; clear H; [reflexivity|].
  unfold next_seq. simpl.
  destruct (decide (fresh (dom (sessions r)) = sid)) as [E|Hne].
  - rewrite <- E, lookup_insert_eq, fresh_id_unused. reflexivity.
  - rewrite lookup_insert_ne by exact Hne. reflexivity.
Qed.

(** An accepted [appendUtterance] returns the session's next number and
    moves it up by one; on any other session it changes nothing. *)
Lemma appendUtterance_next_seq sid' sp txt now r x r' :
  appendUtterance sid' sp txt now r = (x, r') ->
  match x with
  | Ok n =>
      if bool_decide (sid' = sid)
      then n = next_seq sid r /\ next_seq sid r' = S n
      else next_seq sid r' = next_seq sid r
  | Err _ => r' = r
  end.
Proof.
  unfold appendUtterance. intros H.
  destruct (sessions r !! sid') as [s0|] eqn:E0; [|inversion H; subst; reflexivity].
  destruct (bool_decide (status s0 = active)); inversion H; subst; clear H;
    [|reflexivity].
  unfold next_seq. simpl. case_bool_decide as Hs.
  - subst sid'. rewrite lookup_insert_eq, E0. split; reflexivity.
  - rewrite lookup_insert_ne by exact Hs. reflexivity.
Qed.

Lemma accepted_seqs_from (ops : list (Z * Op)) (r : Registry) :
  let got := accepted_seqs sid ops (fst (run ops r)) in
  got = List.seq (next_seq sid r) (length got).
Proof.
  cbv zeta. revert r. induction ops as [|[now o] ops IH]; intros r; [reflexivity|].
  cbn [run]. destruct (apply_op now o r) as [y r1] eqn:Ea.
  specialize (IH r1). destruct (run ops r1) as [ys r2] eqn:Er.
  cbn [fst] in *.
  destruct o as [ch p md | sid' sp txt | sid' e | sid' why]; simpl in Ea.
  - destruct (createSession ch p md now r) as [x r'] eqn:E.
    inversion Ea; subst; clear Ea.
    rewrite <- (createSession_next_seq _ _ _ _ _ _ _ E).
    destruct x; exact IH.
  - destruct (appendUtterance sid' sp txt now r) as [x r'] eqn:E.
    inversion Ea; subst; clear Ea.
    pose proof (appendUtterance_next_seq _ _ _ _ _ _ _ E) as Hn.
    destruct x as [n|err]; cbn [accepted_seqs].
    + case_bool_decide.
      * destruct Hn as [-> Hn']. cbn [length List.seq]. f_equal.
        rewrite <- Hn'. exact IH.
      * rewrite <- Hn. exact IH.
    + subst r1. exact IH.
  - destruct (transition sid' e now r) as [x r'] eqn:E.
    inversion Ea; subst; clear Ea.
    rewrite <- (transition_next_seq _ _ _ _ _ _ E).
    destruct x; exact IH.
  - destruct (endSession sid' why now r) as [x r'] eqn:E.
    inversion Ea; subst; clear Ea.
    rewrite <- (endSession_next_seq _ _ _ _ _ _ E).
    destruct x; exact IH.
Qed.

End Sequence.

(** C5. Over any history of registry calls that starts from the empty
    registry, the sequence numbers returned by the accepted
    [appendUtterance] calls on one session are, in call order, 0, 1, 2 and
    so on: they start at 0 and each is the one before plus one. *)
Theorem appendUtterance_seq_contiguous (ops : list (Z * Op)) (sid : nat) :
  let got := accepted_seqs sid ops (fst (run ops empty)) in
  got = List.seq 0 (length got).
Proof. exact (accepted_seqs_from sid ops empty). Qed.

(** The scenario of the design: create, attach, two utterances, a
    rejected third one after the end. *)
Example appendUtterance_seq_scenario :
  let ops := [(1%Z, Create voice "+15551234567" ∅);
              (2%Z, Transition 0 Attached);
              (3%Z, Append 0 customer "hello");
              (4%Z, Append 0 agent "hi");
              (5%Z, Append 7 agent "nobody");
              (6%Z, Transition 0 Disconnected);
              (7%Z, Transition 0 Drained);
              (8%Z, Append 0 customer "late")] in
  accepted_seqs 0 ops (fst (run ops empty)) = [0; 1] /\
  fst (run ops empty) !! 4 = Some (Failed_ NotFoundError) /\
  fst (run ops empty) !! 7 = Some (Failed_ InvalidStateError).
Proof. repeat apply conj; reflexivity. Qed.

Section Conflict.

(** A live session for the pair makes [createSession] fail and leaves the
    registry as it was. *)
Lemma createSession_live_conflict ch p md now r i s :
  sessions r !! i = Some s ->
  channel s = ch -> participantRef s = p -> is_terminal (status s) = false ->
  createSession ch p md now r = (Err ConflictError, r).
Proof.
  intros Hl Hc Hp Ht. unfold createSession.
  rewrite (has_live_intro ch p (sessions r) i s Hl); [reflexivity|].
  unfold occupies. rewrite Ht, bool_decide_eq_true_2 by exact Hc.
  subst p. rewrite String.eqb_refl. reflexivity.
Qed.

(** What a successful [createSession] returns is stored under its id. *)
Lemma createSession_stored ch p md now r s r' :
  createSession ch p md now r = (Ok s, r') ->
  sessions r' !! id s = Some s /\ channel s = ch /\ participantRef s = p /\
  status s = initializing /\ sessions r !! id s = None.
Proof.
  unfold createSession. intros H.
  destruct (has_live ch p (sessions r)); inversion H; subst; clear H. simpl.
  rewrite lookup_insert_eq. repeat apply conj; try reflexivity.
  apply fresh_id_unused.
Qed.

End Conflict.

(** C4. When [createSession] has succeeded for a pair (channel,
    participantRef) and, after any further history of registry calls, the
    session it created is still in a non-terminal state, a second
    [createSession] for the same pair fails with [ConflictError] and
    leaves the registry unchanged: no session is added. *)
Theorem createSession_twice_conflict
    (ch : Channel) (p : string) (md md' : gmap string string) (now now' : Z)
    (r r1 : Registry) (s s' : Session) (ops : list (Z * Op)) :
  createSession ch p md now r = (Ok s, r1) ->
  sessions (snd (run ops r1)) !! id s = Some s' ->
  is_terminal (status s') = false ->
  createSession ch p md' now' (snd (run ops r1)) = (Err ConflictError, snd (run ops r1)).
Proof.
  intros Hc Hl Ht.
  destruct (createSession_stored _ _ _ _ _ _ _ Hc) as (Hs & Hch & Hp & _ & _).
  destruct (run_keeps ops r1 (id s) s Hs) as (s2 & Hl2 & Hev).
  assert (s2 = s') by congruence. subst s2.
  eapply createSession_live_conflict; [exact Hl | | | exact Ht].
  - rewrite (ev_channel _ _ Hev). exact Hch.
  - rewrite (ev_participant _ _ Hev). exact Hp.
Qed.

(** The theorem above on a registry with one session, attached and one
    utterance long when the second call comes. *)
Lemma createSession_twice_conflict_witness :
  createSession voice "+15551234567" ∅ 10 empty = (Ok witness_session, witness_registry) /\
  sessions (snd (run witness_history witness_registry)) !! 0 = Some witness_active /\
  is_terminal (status witness_active) = false /\
  createSession voice "+15551234567" ∅ 20
    (snd (run witness_history witness_registry))
  = (Err ConflictError, snd (run witness_history witness_registry)).
Proof.
  split; [reflexivity|]. split; [reflexivity|]. split; [reflexivity|].
  apply (createSession_twice_conflict voice "+15551234567" ∅ ∅ 10 20
           empty witness_registry witness_session witness_active
           witness_history); reflexivity.
Defined.

(** Once the first session is over, the pair is free again. *)
Example createSession_after_completion :
  let ops := [(1%Z, Create voice "+15551234567" ∅);
              (2%Z, Create voice "+15551234567" ∅);
              (3%Z, Transition 0 Attached);
              (4%Z, End 0 Finished);
              (5%Z, Create voice "+15551234567" ∅)] in
  fst (run ops empty) !! 1 = Some (Failed_ ConflictError) /\
  (exists s, fst (run ops empty) !! 4 = Some (Session_ s) /\ id s = 1).
Proof. split; [reflexivity | eexists; split; reflexivity]. Qed.

Section Terminal.

(** A session in a terminal state is out of reach of every call. *)
Lemma transition_terminal sid' e now r sid s :
  sessions r !! sid = Some s -> is_terminal (status s) = true ->
  sessions (snd (transition sid' e now r)) !! sid = Some s.
Proof.
  intros Hl Ht. unfold transition.
  destruct (sessions r !! sid') as [s0|] eqn:E0; [|exact Hl].
  destruct (next (status s0) e) as [st|err]; [|exact Hl].
  destruct (is_terminal (status s0)) eqn:T0; [destruct (redelivered s0 e); exact Hl|].
  cbn. rewrite lookup_insert_ne; [exact Hl|].
  intros ->. rewrite Hl in E0. injection E0 as ->. congruence.
Qed.

Lemma appendUtterance_terminal sid' sp txt now r sid s :
  sessions r !! sid = Some s -> is_terminal (status s) = true ->
  sessions (snd (appendUtterance sid' sp txt now r)) !! sid = Some s.
Proof.
  intros Hl Ht. unfold appendUtterance.
  destruct (sessions r !! sid') as [s0|] eqn:E0; [|exact Hl].
  case_bool_decide as Ha; [|exact Hl].
  cbn. rewrite lookup_insert_ne; [exact Hl|].
  intros ->. rewrite Hl in E0. injection E0 as ->. rewrite Ha in Ht. discriminate.
Qed.

Lemma endSession_terminal sid' why now r sid s :
  sessions r !! sid = Some s -> is_terminal (status s) = true ->
  sessions (snd (endSession sid' why now r)) !! sid = Some s.
Proof.
  intros Hl Ht. unfold endSession. destruct why; [|apply transition_terminal; assumption].
  destruct (sessions r !! sid') as [s0|]; [|exact Hl].
  case_bool_decide; [|apply transition_terminal; assumption].
  pose proof (transition_terminal sid' EndRequested now r sid s Hl Ht) as H1.
  destruct (transition sid' EndRequested now r) as [[s1|err] r1]; cbn [snd] in *.
  - apply transition_terminal; assumption.
  - exact H1.
Qed.

Lemma apply_op_terminal now o r sid s :
  sessions r !! sid = Some s -> is_terminal (status s) = true ->
  sessions (snd (apply_op now o r)) !! sid = Some s.
Proof.
  intros Hl Ht. destruct o as [ch p md | sid' sp txt | sid' e | sid' why]; simpl.
  - destruct (createSession ch p md now r) as [x r'] eqn:E. simpl.
    eapply createSession_keeps; eauto.
  - pose proof (appendUtterance_terminal sid' sp txt now r sid s Hl Ht) as H.
    destruct (appendUtterance sid' sp txt now r). exact H.
  - pose proof (transition_terminal sid' e now r sid s Hl Ht) as H.
    destruct (transition sid' e now r). exact H.
  - pose proof (endSession_terminal sid' why now r sid s Hl Ht) as H.
    destruct (endSession sid' why now r). exact H.
Qed.

Lemma run_terminal (ops : list (Z * Op)) (r : Registry) (sid : nat) (s : Session) :
  sessions r !! sid = Some s -> is_terminal (status s) = true ->
  sessions (snd (run ops r)) !! sid = Some s.
Proof.
  revert r. induction ops as [|[now o] ops IH]; intros r Hl Ht; [exact Hl|].
  simpl. pose proof (apply_op_terminal now o r sid s Hl Ht) as H1.
  destruct (apply_op now o r) as [y r1]. simpl in H1.
  specialize (IH r1 H1 Ht). destruct (run ops r1) as [ys r2]. exact IH.
Qed.

(** An edge of the state machine into a terminal state is taken on an
    event that leads to that state. *)
Lemma next_into_terminal (st st' : Status) (e : Event) :
  next st e = Ok st' -> is_terminal st = false -> is_terminal st' = true ->
  terminal_target e = Some st'.
Proof. destruct st, e; simpl; intros [= <-] H1 H2; try discriminate; reflexivity. Qed.

Lemma transition_ended_well sid e now r :
  ended_well r -> ended_well (snd (transition sid e now r)).
Proof.
  intros Hw. unfold transition.
  destruct (sessions r !! sid) as [s0|] eqn:E0; [|exact Hw].
  destruct (next (status s0) e) as [st|err] eqn:En; [|exact Hw].
  destruct (is_terminal (status s0)) eqn:T0; [destruct (redelivered s0 e); exact Hw|].
  intros i s Hl Ht. cbn in Hl.
  destruct (decide (sid = i)) as [->|Hne].
  - rewrite lookup_insert_eq in Hl. injection Hl as <-. cbn in *.
    rewrite Ht. exists e. split; [reflexivity|].
    eapply next_into_terminal; eauto.
  - rewrite lookup_insert_ne in Hl by exact Hne. exact (Hw i s Hl Ht).
Qed.

Lemma apply_op_ended_well now o r : ended_well r -> ended_well (snd (apply_op now o r)).
Proof.
  intros Hw. destruct o as [ch p md | sid sp txt | sid e | sid why]; simpl.
  - unfold createSession. destruct (has_live ch p (sessions r)); [exact Hw|].
    intros i s Hl Ht. cbn in Hl.
    destruct (decide (fresh (dom (sessions r)) = i)) as [<-|Hne].
    + rewrite lookup_insert_eq in Hl. injection Hl as <-. discriminate.
    + rewrite lookup_insert_ne in Hl by exact Hne. exact (Hw i s Hl Ht).
  - unfold appendUtterance.
    destruct (sessions r !! sid) as [s0|] eqn:E0; [|exact Hw].
    case_bool_decide as Ha; [|exact Hw].
    intros i s Hl Ht. cbn in Hl.
    destruct (decide (sid = i)) as [->|Hne].
    + rewrite lookup_insert_eq in Hl. injection Hl as <-. cbn in Ht.
      rewrite Ha in Ht. discriminate.
    + rewrite lookup_insert_ne in Hl by exact Hne. exact (Hw i s Hl Ht).
  - pose proof (transition_ended_well sid e now r Hw) as H.
    destruct (transition sid e now r). exact H.
  - unfold endSession. destruct why.
    + destruct (sessions r !! sid) as [s0|]; [|exact Hw].
      case_bool_decide.
      * pose proof (transition_ended_well sid EndRequested now r Hw) as H1.
        destruct (transition sid EndRequested now r) as [[s1|err] r1]; cbn [snd] in *.
        -- pose proof (transition_ended_well sid Drained now r1 H1) as H2.
           destruct (transition sid Drained now r1). exact H2.
        -- exact H1.
      * pose proof (transition_ended_well sid Drained now r Hw) as H3.
        destruct (transition sid Drained now r). exact H3.
    + pose proof (transition_ended_well sid TransportError now r Hw) as H.
      destruct (transition sid TransportError now r). exact H.
Qed.

Lemma run_ended_well (ops : list (Z * Op)) (r : Registry) :
  ended_well r -> ended_well (snd (run ops r)).
Proof.
  revert r. induction ops as [|[now o] ops IH]; intros r Hw; [exact Hw|].
  simpl. pose proof (apply_op_ended_well now o r Hw) as H1.
  destruct (apply_op now o r) as [y r1]. simpl in H1.
  specialize (IH r1 H1). destruct (run ops r1) as [ys r2]. exact IH.
Qed.

Lemma empty_ended_well : ended_well empty.
Proof. intros i s Hl. cbn in Hl. rewrite lookup_empty in Hl. discriminate. Qed.

(** C6. For a session that has reached a terminal state in a registry
    built from the empty one by registry calls, and after any further
    history of calls: the session is still there, unchanged, terminal
    state included; the terminal event that ended it, which the session
    carries and which leads to the state it is in, is taken again by
    [transition] without an error, returning the session as it is and
    changing nothing; every other terminal event fails with
    [InvalidTransitionError] and changes nothing; and no session that has
    left [initializing] is ever in [initializing] again, no accepted
    sequence of transitions ending there. *)
Theorem terminal_sessions_are_final
    (before after : list (Z * Op)) (sid : nat) (s : Session) :
  sessions (snd (run before empty)) !! sid = Some s ->
  is_terminal (status s) = true ->
  let r' := snd (run after (snd (run before empty))) in
  sessions r' !! sid = Some s /\
  (exists e0, endedBy s = Some e0 /\ terminal_target e0 = Some (status s) /\
     forall now, transition sid e0 now r' = (Ok s, r')) /\
  (forall e now, terminal_target e <> None -> endedBy s <> Some e ->
     transition sid e now r' = (Err InvalidTransitionError, r')) /\
  (forall st es st', es <> [] -> next_all st es = Ok st' -> st' <> initializing) /\
  (forall i s0 s1, sessions (snd (run before empty)) !! i = Some s0 ->
     status s0 <> initializing ->
     sessions r' !! i = Some s1 -> status s1 <> initializing).
Proof.
  intros Hl Ht. cbv zeta.
  pose proof (run_terminal after _ sid s Hl Ht) as Hl'.
  destruct (run_ended_well before empty empty_ended_well sid s Hl Ht) as (e0 & Hby & Htg).
  refine (conj Hl' (conj _ (conj _ (conj _ _)))).
  - exists e0. refine (conj Hby (conj Htg _)). intros now.
    unfold transition. rewrite Hl'. unfold redelivered. rewrite Hby.
    destruct (status s), e0; simpl in *; try discriminate; reflexivity.
  - intros e now He Hne. unfold transition. rewrite Hl'. unfold redelivered.
    rewrite (bool_decide_eq_false_2 _ Hne).
    destruct (status s), e; simpl in *; try discriminate; try reflexivity; congruence.
  - intros st es st'. apply next_all_not_initializing.
  - intros i s0 s1 Hl0 Hn Hl1 Hi.
    destruct (run_keeps after _ i s0 Hl0) as (s2 & Hl2 & Hev).
    assert (s2 = s1) by congruence. subst s2.
    apply Hn, (ev_status _ _ Hev), Hi.
Qed.

(** The theorem above on a session completed by [Drained], after calls
    that try to attach it, to append to it, to abort it and to time it
    out: it is as it was, a second [Drained] changes nothing, a transport
    error and a timeout are refused. *)
Lemma terminal_sessions_are_final_witness :
  let r' := snd (run later_history completed_registry) in
  sessions completed_registry !! 0 = Some completed_session /\
  is_terminal (status completed_session) = true /\
  sessions r' !! 0 = Some completed_session /\
  transition 0 Drained 30 r' = (Ok completed_session, r') /\
  transition 0 TransportError 30 r' = (Err InvalidTransitionError, r') /\
  transition 0 AttachTimeout 30 r' = (Err InvalidTransitionError, r').
Proof.
  cbv zeta.
  destruct (terminal_sessions_are_final closing_history later_history 0 completed_session
              eq_refl eq_refl) as (Hsame & (e0 & Hby & _ & Hre) & Hbad & _).
  assert (e0 = Drained) as -> by (cbn in Hby; congruence).
  split; [reflexivity|]. split; [reflexivity|]. split; [exact Hsame|]. split; [apply Hre|].
  split; apply Hbad; cbn; congruence.
Defined.

(** A session failed by a transport error refuses a later timeout, and
    takes the transport error again. *)
Example failed_session_redelivery :
  let r := snd (run later_history completed_registry) in
  (status <$> sessions r !! 1) = Some failed /\
  (endedBy <$> sessions r !! 1) = Some (Some TransportError) /\
  fst (transition 1 AttachTimeout 30 r) = Err InvalidTransitionError /\
  snd (transition 1 TransportError 30 r) = r.
Proof. vm_compute. repeat apply conj; reflexivity. Qed.

End Terminal.

End RegistryProofs.

(* ================================================================== *)
(** * Further properties of the routes *)
(* ================================================================== *)

Section RouteFacts.

Ltac handler_cases b E :=
  unfold serve, response, world_after, respond; simpl;
  unfold post_conversations, post_webhooks_twilio, post_livekit_token,
    try_catch, bind; simpl;
  destruct (is_nullish b) eqn:E;
  try (rewrite (destructurable_throws _ _ _ E));
  try (rewrite (destructurable_ok _ _ _ E)); simpl.

(** X1. Every call is answered, and by the handler itself: no exception
    leaves a handler, a body is always sent, and the status is 500 exactly
    when a route that destructures the body is given [null] or
    [undefined]; otherwise it is 201 for the creation route and 200 for
    the others.  No route answers with a 4xx status. *)
Theorem every_call_is_answered (c : Call) (w : World) :
  let r := fst (serve c w) in
  fst (fst (respond (handler_of (endpoint c)) (request_of c) w)) = Done tt /\
  payload r <> None /\
  header "Content-Type" (headers r) <> None /\
  statusCode r =
    (if reads_body (endpoint c) && is_nullish (payload_in c)
     then 500%Z else success_code (endpoint c)) /\
  ~ (400 <= statusCode r < 500)%Z.
Proof.
  destruct c as [[| | id | id | |] b]; cbv zeta;
    try (repeat apply conj; try reflexivity; try discriminate; simpl; lia);
    handler_cases b E; repeat apply conj; try reflexivity; try discriminate; lia.
Qed.

(** What one call appends to the log. *)
Lemma serve_log_step (c : Call) (w : World) :
  exists entries,
    log (snd (serve c w)) = (log w ++ entries)%list /\
    length entries = (if logs_a_line c then 1 else 0) /\
    length (List.filter is_error_entry entries) = (if is_500 (fst (serve c w)) then 1 else 0) /\
    clock (snd (serve c w)) = clock w.
Proof.
  destruct c as [[| | id | id | |] b];
    first
      [ exists []; repeat apply conj; [symmetry; apply app_nil_r | reflexivity ..]
      | eexists; repeat apply conj; reflexivity
      | handler_cases b E; eexists; repeat apply conj; reflexivity ].
Qed.

(** X2. The log is append-only and counts the calls: over any history the
    log after is the log before followed by one entry per call other than
    the health check, and the entries at level error are as many as the
    500 answers. *)
Theorem log_counts_calls (cs : list Call) (w : World) :
  exists entries,
    log (snd (serve_all cs w)) = (log w ++ entries)%list /\
    length entries = length (List.filter logs_a_line cs) /\
    length (List.filter is_error_entry entries) =
      length (List.filter is_500 (fst (serve_all cs w))).
Proof.
  revert w. induction cs as [|c cs IH]; intros w.
  - exists []. simpl. rewrite app_nil_r. auto.
  - cbn [serve_all].
    destruct (serve_log_step c w) as (e1 & Hl1 & Hn1 & He1 & _).
    destruct (serve c w) as [r w1] eqn:Es. cbn [fst snd] in *.
    destruct (IH w1) as (e2 & Hl2 & Hn2 & He2).
    destruct (serve_all cs w1) as [rs w2] eqn:Er. cbn [fst snd] in *.
    exists (e1 ++ e2)%list. repeat apply conj.
    + rewrite Hl2, Hl1, app_assoc. reflexivity.
    + rewrite length_app, Hn1, Hn2. cbn [List.filter].
      destruct (logs_a_line c); reflexivity.
    + rewrite List.filter_app, length_app, He1, He2. cbn [List.filter].
      destruct (is_500 r); reflexivity.
Qed.

Lemma substring_whole (s : string) : String.substring 0 (String.length s) s = s.
Proof. induction s as [|c s IH]; simpl; [reflexivity | rewrite IH; reflexivity]. Qed.

(** The decimal text of an integer reads back as the integer. *)
Lemma show_int_reads_back (n : Z) :
  option_map Z.of_int (NilZero.int_of_string (show_int n)) = Some n.
Proof.
  unfold show_int. rewrite NilZero.isi.
  - simpl. f_equal. apply DecimalZ.of_to.
  - destruct n; simpl; try discriminate.
    intros H. injection H as H. exact (DecimalPos.Unsigned.to_uint_nonnil _ H).
  - destruct n; simpl; try discriminate.
    intros H. injection H as H. exact (DecimalPos.Unsigned.to_uint_nonnil _ H).
Qed.

Lemma parse_conversation_id_show (t : Z) :
  parse_conversation_id (JStr ("conv-" ++ show_int t)) = Some t.
Proof.
  generalize (show_int_reads_back t). generalize (show_int t). intros s Hs.
  unfold parse_conversation_id. cbv [String.append]. simpl.
  rewrite Nat.sub_0_r, substring_whole. destruct s; exact Hs.
Qed.

(** X3. The id a creation hands out is the clock reading made while the
    request is served, and reads back as that reading; so two creations,
    whatever their bodies, receive the same id exactly when their clock
    readings are equal: within one millisecond, ids collide. *)
Theorem conversation_ids_follow_the_clock
    (ps1 ps2 : list (string * string)) (props1 props2 : list (string * JsValue))
    (w1 w2 : World) :
  let id1 := body_field (response post_conversations
                           {| params := ps1; body := JObj props1 |} w1) "conversationId" in
  let id2 := body_field (response post_conversations
                           {| params := ps2; body := JObj props2 |} w2) "conversationId" in
  parse_conversation_id id1 = Some (clock w1 (reads w1)) /\
  (id1 = id2 <-> clock w1 (reads w1) = clock w2 (reads w2)).
Proof.
  cbv zeta.
  change (body_field (response post_conversations {| params := ps1; body := JObj props1 |} w1)
            "conversationId") with (JStr ("conv-" ++ show_int (clock w1 (reads w1)))).
  change (body_field (response post_conversations {| params := ps2; body := JObj props2 |} w2)
            "conversationId") with (JStr ("conv-" ++ show_int (clock w2 (reads w2)))).
  split; [apply parse_conversation_id_show|]. split.
  - intros H. apply (f_equal parse_conversation_id) in H.
    rewrite !parse_conversation_id_show in H. congruence.
  - intros ->. reflexivity.
Qed.

(** Two creations served one after the other on a clock that stands still
    receive the same id. *)
Example conversation_ids_collide :
  let c := {| endpoint := PostConversations; payload_in := JObj [] |} in
  List.map (fun r => body_field r "conversationId") (fst (serve_all [c; c] world0))
  = [JStr "conv-1700000000000"; JStr "conv-1700000000000"].
Proof. reflexivity. Qed.

(** X4. On a clock that does not run backwards, the timestamps of the
    three turns of the transcript are numbers in strictly increasing
    order, and each lies at least 60 seconds before the reading it was
    computed from. *)
Theorem transcript_timestamps_increase (id : string) (b : JsValue) (w : World) :
  (clock w (reads w) <= clock w (S (reads w)))%Z ->
  (clock w (S (reads w)) <= clock w (S (S (reads w))))%Z ->
  exists t1 t2 t3,
    transcript_timestamps
      (fst (serve {| endpoint := GetConversation id; payload_in := b |} w))
      = [JNum t1; JNum t2; JNum t3] /\
    (t1 < t2 < t3)%Z /\
    (t3 <= clock w (S (S (reads w))) - 60000)%Z.
Proof.
  intros H12 H23. rewrite get_conversation_response.
  eexists _, _, _. split; [reflexivity|]. lia.
Qed.

(** The theorem above on a clock that advances by one millisecond a reading. *)
Lemma transcript_timestamps_increase_witness :
  exists t1 t2 t3,
    transcript_timestamps
      (fst (serve {| endpoint := GetConversation "conv-1"; payload_in := JObj [] |}
              (steady_clock 1700000000000)))
      = [JNum t1; JNum t2; JNum t3] /\
    (t1 < t2 < t3)%Z /\
    (t3 <= clock (steady_clock 1700000000000) 2 - 60000)%Z.
Proof.
  apply (transcript_timestamps_increase "conv-1" (JObj []) (steady_clock 1700000000000));
    simpl; lia.
Defined.

(** X5. A handler reads of the request body only the properties it goes
    on to use: two calls of the same route whose bodies agree on those
    properties (neither body being [null] or [undefined] on a route that
    destructures it, as is the case behind the body parsers) get the same
    answer and leave the same world, log included.  So [initialContext]
    reaches neither the answer nor the log, and the two routes with an id
    in the path ignore the body altogether. *)
Theorem handlers_read_only_their_fields (e : Endpoint) (b1 b2 : JsValue) (w : World) :
  reads_body e && (is_nullish b1 || is_nullish b2) = false ->
  Forall (fun k => get_prop b1 k = get_prop b2 k) (fields_used e) ->
  serve {| endpoint := e; payload_in := b1 |} w =
  serve {| endpoint := e; payload_in := b2 |} w.
Proof.
  intros Hn Hf. destruct e as [| | id | id | |]; try reflexivity;
    cbn in Hn, Hf; apply orb_false_elim in Hn as [E1 E2];
    repeat match goal with
           | H : Forall _ (_ :: _) |- _ =>
               pose proof (List.Forall_inv H); apply List.Forall_inv_tail in H
           end;
    cbv beta in *;
    unfold serve, response, world_after, respond; simpl;
    unfold post_conversations, post_webhooks_twilio, post_livekit_token,
      try_catch, bind; simpl;
    rewrite (destructurable_ok _ _ _ E1), (destructurable_ok _ _ _ E2);
    simpl;
    repeat match goal with
           | H : get_prop b1 _ = get_prop b2 _ |- _ => rewrite H; clear H
           end;
    reflexivity.
Qed.

(** The theorem above on two creation requests that differ in
    [initialContext] and in a property the handler does not name. *)
Lemma handlers_read_only_their_fields_witness :
  let b1 := JObj [("customerId", JStr "c-1"); ("phoneNumber", JStr "+15551234567");
                  ("initialContext", JStr "renewal")] in
  let b2 := JObj [("phoneNumber", JStr "+15551234567"); ("customerId", JStr "c-1");
                  ("initialContext", JStr "new quote"); ("ssn", JStr "000-00-0000")] in
  serve {| endpoint := PostConversations; payload_in := b1 |} world0 =
  serve {| endpoint := PostConversations; payload_in := b2 |} world0.
Proof.
  cbv zeta. apply handlers_read_only_their_fields; [reflexivity|].
  repeat constructor.
Defined.

(** A [null] and an [undefined] body are told apart in the log: the error
    logged names the value found. *)
Example null_and_undefined_bodies_differ :
  log (snd (serve {| endpoint := PostWebhooksTwilio; payload_in := JNull |} world0)) <>
  log (snd (serve {| endpoint := PostWebhooksTwilio; payload_in := JUndefined |} world0)).
Proof. discriminate. Qed.

End RouteFacts.

(* ================================================================== *)
(** * Properties of the service entry point *)
(* ================================================================== *)

Section EntryPoint.

Lemma js_or_truthy (a b : JsValue) : truthy b = true -> truthy (js_or a b) = true.
Proof. unfold js_or. destruct (truthy a) eqn:E; auto. Qed.

(** X6. When the two declarations go through, the port and the host are
    truthy values: never [undefined], [null], 0 or the empty string; and
    they go through exactly when the service configuration is neither
    [null] nor [undefined]. *)
Theorem address_is_usable (env : gmap string string) (serviceConfig p h : JsValue) :
  address env serviceConfig = Some (p, h) ->
  truthy p = true /\ truthy h = true /\ is_nullish serviceConfig = false.
Proof.
  unfold address, port, host, member.
  destruct (is_nullish serviceConfig) eqn:En.
  - destruct (truthy (env_get env "PORT")); discriminate.
  - destruct (truthy (env_get env "PORT")) eqn:Ep; intros H; inversion H; subst;
      repeat apply conj; auto; apply js_or_truthy; reflexivity.
Qed.

(** The theorem above with no [PORT] and a configuration whose port is 0. *)
Lemma address_is_usable_witness :
  address ∅ (JObj [("port", JNum 0); ("host", JStr "127.0.0.1")])
    = Some (JNum 3001, JStr "127.0.0.1") /\
  truthy (JNum 3001) = true /\ truthy (JStr "127.0.0.1") = true /\
  is_nullish (JObj [("port", JNum 0); ("host", JStr "127.0.0.1")]) = false.
Proof.
  split; [reflexivity|].
  apply (address_is_usable ∅ (JObj [("port", JNum 0); ("host", JStr "127.0.0.1")])).
  reflexivity.
Defined.

(** X7. [PORT] takes precedence as it stands: set to a non-empty string
    it is the port, as that string and whatever the configuration holds
    (the configuration is not even read); set to the empty string it
    counts as unset. *)
Theorem port_env_precedence (env : gmap string string) (serviceConfig : JsValue) (s : string) :
  port (<["PORT" := s]> env) serviceConfig =
  if String.eqb s EmptyString then port (delete "PORT" env) serviceConfig
  else Some (JStr s).
Proof.
  unfold port, env_get. rewrite lookup_insert_eq, lookup_delete_eq. simpl.
  destruct (String.eqb s EmptyString); reflexivity.
Qed.

Lemma io_step_exited (st : IoState) (ev : ProcessEvent) :
  exit_status st <> None -> io_step st ev = st.
Proof. unfold io_step. destruct (exit_status st); [reflexivity | congruence]. Qed.

Lemma io_run_exited (evs : list ProcessEvent) (st : IoState) :
  exit_status st <> None -> io_run st evs = st.
Proof.
  revert st. induction evs as [|ev evs IH]; intros st H; [reflexivity|].
  unfold io_run in *. cbn [fold_left]. rewrite (io_step_exited st ev H). apply IH, H.
Qed.

Lemma io_run_app (evs1 evs2 : list ProcessEvent) (st : IoState) :
  io_run st (evs1 ++ evs2) = io_run (io_run st evs1) evs2.
Proof. unfold io_run. apply fold_left_app. Qed.

Lemma io_step_fatal (st : IoState) (ev : ProcessEvent) :
  is_fatal ev = true -> exit_status (io_step st ev) <> None.
Proof.
  unfold io_step. destruct (exit_status st) eqn:E; [congruence|].
  destruct ev as [id | id e | [c|] | r p]; simpl; congruence.
Qed.

Lemma io_step_exit_status (st : IoState) (ev : ProcessEvent) :
  exit_status st = None ->
  exit_status (io_step st ev) = exit_on ev.
Proof.
  unfold io_step. intros H. rewrite H.
  destruct ev as [id | id e | [c|] | r p]; simpl; try reflexivity.
  destruct (bool_decide (id ∈ live st)); [reflexivity | exact H].
Qed.

Lemma io_run_exit_status (evs : list ProcessEvent) (st : IoState) :
  exit_status st = None -> exit_status (io_run st evs) = first_exit evs.
Proof.
  revert st. induction evs as [|ev evs IH]; intros st H; [exact H|].
  unfold io_run, first_exit in *. cbn [fold_left List.find].
  pose proof (io_step_exit_status st ev H) as Hs.
  destruct (is_fatal ev) eqn:Ef.
  - rewrite <- Hs. fold (io_run (io_step st ev) evs).
    rewrite io_run_exited; [reflexivity | apply io_step_fatal, Ef].
  - apply IH. rewrite Hs. destruct ev as [id | id e | [c|] | r p]; try discriminate; reflexivity.
Qed.

Lemma io_run_snoc (evs : list ProcessEvent) (ev : ProcessEvent) (st : IoState) :
  io_run st (evs ++ [ev]) = io_step (io_run st evs) ev.
Proof. rewrite io_run_app. reflexivity. Qed.

(** X8. The process ends at the first fatal event and nowhere else: with
    no uncaught exception and no unhandled rejection in the history it is
    still running; otherwise it has left with code 1, unless the first
    fatal event is an uncaught [null] or [undefined], on which the
    listener itself throws.  On a process still running, an uncaught
    exception appends to the log exactly one error entry, [Uncaught
    exception] with the message and the stack of the error, and an
    unhandled rejection exactly one, [Unhandled rejection] with the reason
    and the promise; an uncaught [null] or [undefined] appends none; and
    on a process that has ended nothing is appended.  Whatever comes
    after a fatal event changes nothing: no log line, no answer to a
    client. *)
Theorem process_ends_at_first_fatal_event
    (w : World) (before after : list ProcessEvent)
    (error : Caught) (reason promise : JsValue) :
  let st := io_run (io_start w) before in
  let logged ev := log (io_world (io_run (io_start w) (before ++ [ev]))) in
  let if_running (entries : list LogEntry) :=
    match first_exit before with None => entries | Some _ => [] end in
  exit_status st = first_exit before /\
  logged (UncaughtException (Some error)) =
    (log (io_world st) ++
     if_running [{| level := Error; message := "Uncaught exception";
                    meta := JObj [("error", message_of error);
                                  ("stack", stack_of error)] |}])%list /\
  logged (UnhandledRejection reason promise) =
    (log (io_world st) ++
     if_running [{| level := Error; message := "Unhandled rejection";
                    meta := JObj [("reason", reason); ("promise", promise)] |}])%list /\
  logged (UncaughtException None) = log (io_world st) /\
  (forall e, io_run (io_start w) (before ++ UncaughtException e :: after) =
             io_run (io_start w) (before ++ [UncaughtException e])) /\
  io_run (io_start w) (before ++ UnhandledRejection reason promise :: after) =
    io_run (io_start w) (before ++ [UnhandledRejection reason promise]).
Proof.
  cbv zeta.
  pose proof (io_run_exit_status before (io_start w) eq_refl) as Hx.
  refine (conj Hx (conj _ (conj _ (conj _ (conj _ _))))).
  - rewrite io_run_snoc. unfold io_step. rewrite Hx.
    destruct (first_exit before); [symmetry; apply app_nil_r | reflexivity].
  - rewrite io_run_snoc. unfold io_step. rewrite Hx.
    destruct (first_exit before); [symmetry; apply app_nil_r | reflexivity].
  - rewrite io_run_snoc. unfold io_step. rewrite Hx.
    destruct (first_exit before); reflexivity.
  - intros e.
    change (UncaughtException e :: after)
      with ([UncaughtException e] ++ after)%list.
    rewrite app_assoc, io_run_app. apply io_run_exited.
    rewrite io_run_app. apply io_step_fatal. reflexivity.
  - change (UnhandledRejection reason promise :: after)
      with ([UnhandledRejection reason promise] ++ after)%list.
    rewrite app_assoc, io_run_app. apply io_run_exited.
    rewrite io_run_app. apply io_step_fatal. reflexivity.
Qed.

(** One uncaught exception after two connections: one error entry, code 1,
    and the rejection that follows leaves no trace. *)
Example uncaught_exception_logged_once :
  let c := {| message_of := JStr "boom"; stack_of := JStr "Error: boom" |} in
  let st := io_run (io_start world0)
              [Connection "a"; Connection "b"; UncaughtException (Some c);
               UnhandledRejection JNull JNull; FromClient "a" (VoiceStream JNull)] in
  exit_status st = Some (Exited 1) /\
  List.map message (log (io_world st)) =
    ["Client connected: a"; "Client connected: b"; "Uncaught exception"] /\
  sent_to st "a" = [].
Proof. repeat apply conj; reflexivity. Qed.

Lemma sent_to_insert_ne (st : IoState) (i j : string) (es : list Emit) :
  i <> j ->
  match <[i := es]> (outbox st) !! j with Some x => x | None => [] end = sent_to st j.
Proof. intros H. unfold sent_to. rewrite lookup_insert_ne by exact H. reflexivity. Qed.

Lemma io_step_other_socket (st : IoState) (ev : ProcessEvent) (id : string) :
  socket_of ev <> Some id ->
  sent_to (io_step st ev) id = sent_to st id /\
  (id ∈ live (io_step st ev) <-> id ∈ live st).
Proof.
  intros H. unfold io_step. destruct (exit_status st); [tauto|].
  destruct ev as [i | i e | [c|] | r p]; simpl in *; try tauto.
  - assert (i <> id) by congruence. split.
    + unfold sent_to at 1. simpl. apply sent_to_insert_ne; assumption.
    + rewrite elem_of_union, elem_of_singleton.
      split; [intros [?|?]; [congruence | assumption] | auto].
  - assert (i <> id) by congruence.
    case_bool_decide; [|tauto]. split.
    + unfold sent_to at 1. simpl. apply sent_to_insert_ne; assumption.
    + simpl. destruct (is_disconnect e); [|tauto].
      rewrite elem_of_difference, elem_of_singleton.
      split; [tauto | intros; split; [assumption | congruence]].
Qed.

(** X9. Sockets are served apart: over a history in which no event
    belongs to socket [id] (events of other sockets, fatal events), what
    has been emitted on [id] and whether [id] is connected stay as they
    were.  A frame on one socket is never answered on another. *)
Theorem other_sockets_untouched (evs : list ProcessEvent) (st : IoState) (id : string) :
  Forall (fun ev => socket_of ev <> Some id) evs ->
  sent_to (io_run st evs) id = sent_to st id /\
  (id ∈ live (io_run st evs) <-> id ∈ live st).
Proof.
  revert st. induction evs as [|ev evs IH]; intros st H; [tauto|].
  pose proof (List.Forall_inv H) as H1. apply List.Forall_inv_tail in H.
  unfold io_run in *. cbn [fold_left].
  destruct (IH (io_step st ev) H) as [Hs Hl].
  destruct (io_step_other_socket st ev id H1) as [Hs1 Hl1].
  split; [congruence | tauto].
Qed.

(** The theorem above: frames and the disconnection of socket [b] leave
    socket [a] with its one answer. *)
Lemma other_sockets_untouched_witness :
  let evs := [FromClient "b" (VoiceStream (JStr "pcm")); FromClient "b" (VoiceStream JNull);
              FromClient "b" Disconnect] in
  sent_to (io_run two_clients evs) "a" = [ai_response] /\
  sent_to (io_run two_clients evs) "b" = [ai_response; ai_response].
Proof.
  cbv zeta. split; [|reflexivity].
  change [ai_response] with (sent_to two_clients "a").
  apply (other_sockets_untouched _ two_clients "a").
  repeat constructor; discriminate.
Defined.

Lemma sent_to_insert_eq (st : IoState) (i : string) (es : list Emit) :
  match <[i := es]> (outbox st) !! i with Some x => x | None => [] end = es.
Proof. rewrite lookup_insert_eq. reflexivity. Qed.

Lemma io_step_sent (st : IoState) (ev : ProcessEvent) (id : string) :
  Forall (eq ai_response) (sent_to st id) ->
  Forall (eq ai_response) (sent_to (io_step st ev) id) /\
  length (sent_to (io_step st ev) id) <=
    length (sent_to st id) + (if is_frame_of id ev then 1 else 0).
Proof.
  intros Hall. unfold io_step. destruct (exit_status st); [split; [assumption | lia]|].
  destruct ev as [i | i e | [c|] | r p]; simpl;
    try (split; [exact Hall | unfold sent_to; simpl; lia]).
  - destruct (decide (i = id)) as [->|Hne].
    + unfold sent_to at 1 2. simpl. rewrite sent_to_insert_eq.
      split; [apply List.Forall_nil | simpl; lia].
    + unfold sent_to at 1 2. simpl. rewrite (sent_to_insert_ne st i id _ Hne).
      split; [assumption | lia].
  - case_bool_decide; [|split; [assumption | destruct e; lia]].
    destruct (decide (i = id)) as [->|Hne].
    + unfold sent_to at 1 2. simpl. rewrite sent_to_insert_eq.
      destruct e as [a | | nm a]; simpl.
      * rewrite String.eqb_refl. split.
        -- apply Forall_app. split; [assumption|].
           apply List.Forall_cons; [reflexivity | apply List.Forall_nil].
        -- rewrite length_app. simpl. lia.
      * split; [assumption | lia].
      * split; [assumption | lia].
    + unfold sent_to at 1 2. simpl. rewrite (sent_to_insert_ne st i id _ Hne).
      split; [assumption | destruct e; lia].
Qed.

Lemma io_run_sent (evs : list ProcessEvent) (st : IoState) (id : string) :
  Forall (eq ai_response) (sent_to st id) ->
  Forall (eq ai_response) (sent_to (io_run st evs) id) /\
  length (sent_to (io_run st evs) id) <=
    length (sent_to st id) + length (List.filter (is_frame_of id) evs).
Proof.
  revert st. induction evs as [|ev evs IH]; intros st Hall.
  - simpl. split; [assumption | lia].
  - unfold io_run in *. cbn [fold_left List.filter].
    destruct (io_step_sent st ev id Hall) as [H1 L1].
    destruct (IH (io_step st ev) H1) as [H2 L2].
    split; [assumption|].
    destruct (is_frame_of id ev); simpl; lia.
Qed.

(** X10. From start-up on, over any history and on every socket, the
    server emits nothing but [aiResponse] with the payload
    [{message: 'Voice data received'}], and never more of them than the
    [voiceStream] frames that socket has sent: nothing is emitted
    unprompted, on connection, on disconnection or on a fatal event. *)
Theorem server_emits_only_answers (w : World) (evs : list ProcessEvent) (id : string) :
  Forall (eq ai_response) (sent_to (io_run (io_start w) evs) id) /\
  length (sent_to (io_run (io_start w) evs) id) <=
    length (List.filter (is_frame_of id) evs).
Proof.
  destruct (io_run_sent evs (io_start w) id) as [H L]; [apply List.Forall_nil|].
  split; [exact H | exact L].
Qed.

(** A frame that arrives before the connection or after the disconnection
    is not answered. *)
Example frames_outside_a_connection :
  let evs := [FromClient "a" (VoiceStream JNull); Connection "a";
              FromClient "a" (VoiceStream JNull); FromClient "a" Disconnect;
              FromClient "a" (VoiceStream JNull)] in
  sent_to (io_run (io_start world0) evs) "a" = [ai_response].
Proof. reflexivity. Qed.

End EntryPoint.

(* ================================================================== *)
(** * Properties of the setup script *)
(* ================================================================== *)

Module SetupProofs.
Import Setup.

(** X11. An answer counts as yes exactly when its first character is
    [y] or [Y]: [yes], [Y] and [yellow] do, and the empty answer, [n] and
    an answer with a leading blank do not. *)
Theorem says_yes_first_letter (answer : string) :
  says_yes answer = String.prefix "y" answer || String.prefix "Y" answer.
Proof.
  destruct answer as [|c rest]; [reflexivity|].
  unfold says_yes. cbn [toLowerCase].
  destruct c as [[] [] [] [] [] [] [] []]; destruct rest; reflexivity.
Qed.

Example says_yes_samples :
  List.map says_yes ["y"; "Y"; "yes"; "YES"; "yellow"; EmptyString; "n"; " y"; "ok"]
  = [true; true; true; true; true; false; false; false; false].
Proof. reflexivity. Qed.

Section Files.

Variable os : Os.

(** [copyEnvFile] loses nothing, runs nothing and does not exit. *)
Lemma copyEnvFile_frame (st : Sys) :
  let r := copyEnvFile os st in
  fs st ⊆ fs (snd r) /\ ran (snd r) = ran st /\ exit_code (snd r) = exit_code st.
Proof.
  cbv zeta. unfold copyEnvFile, existsSync, copyFileSync.
  destruct (fs st !! [".env"]) as [n|] eqn:Eenv; cbn [negb].
  - cbn. auto.
  - destruct (fs st !! [".env.example"]) as [[content|]|]; cbn; auto.
    split; [|auto]. apply insert_subseteq. exact Eenv.
Qed.

(** X12. [copyEnvFile] copies [.env.example] to [.env] when there is no
    [.env] and [.env.example] is a file, and then returns true with [.env]
    holding the content of [.env.example]; it returns true and changes
    nothing when [.env] exists; it returns false and changes nothing when
    [.env] is missing and [.env.example] is missing or a directory.  So it
    only ever adds (every entry of the file system is still there with
    its content afterwards), it returns true exactly when [.env] exists
    afterwards, and a second run changes the file system no further and
    returns the same.  It runs no command and does not end the process. *)
Theorem copyEnvFile_adds_only (st : Sys) :
  let r := copyEnvFile os st in
  match fs st !! [".env"], fs st !! [".env.example"] with
  | Some _, _ => fst r = true /\ fs (snd r) = fs st
  | None, Some (File content) =>
      fst r = true /\ fs (snd r) = <[[".env"] := File content]> (fs st)
  | None, _ => fst r = false /\ fs (snd r) = fs st
  end /\
  fs st ⊆ fs (snd r) /\
  fst r = existsSync [".env"] (fs (snd r)) /\
  fs (snd (copyEnvFile os (snd r))) = fs (snd r) /\
  fst (copyEnvFile os (snd r)) = fst r /\
  ran (snd r) = ran st /\ exit_code (snd r) = exit_code st.
Proof.
  cbv zeta. unfold copyEnvFile, existsSync, copyFileSync.
  destruct (fs st !! [".env"]) as [n|] eqn:Eenv; cbn [negb].
  - repeat (cbn; rewrite ?Eenv). repeat apply conj; reflexivity.
  - destruct (fs st !! [".env.example"]) as [[content|]|] eqn:Eex.
    + repeat (cbn; rewrite ?lookup_insert_eq).
      repeat apply conj; try reflexivity.
      apply insert_subseteq. exact Eenv.
    + repeat (cbn; rewrite ?Eenv, ?Eex). repeat apply conj; reflexivity.
    + repeat (cbn; rewrite ?Eenv, ?Eex). repeat apply conj; reflexivity.
Qed.

(** The three cases on three trees: the copy, the existing [.env] kept,
    and the failure. *)
Example copyEnvFile_cases :
  let with_example : Fs := {[ [".env.example"] := File "PORT=3000" ]} in
  let with_both : Fs := {[ [".env"] := File "PORT=8080"; [".env.example"] := File "PORT=3000" ]} in
  let r1 := copyEnvFile (idle_os true) (boot with_example) in
  let r2 := copyEnvFile (idle_os true) (boot with_both) in
  let r3 := copyEnvFile (idle_os true) (boot ∅) in
  (fst r1 = true /\ fs (snd r1) !! [".env"] = Some (File "PORT=3000")) /\
  (fst r2 = true /\ fs (snd r2) !! [".env"] = Some (File "PORT=8080")) /\
  (fst r3 = false /\ fs (snd r3) = ∅ /\
   out (snd r3) = [(Stderr, yellow ++ "Failed to create .env file: " ++ "fault" ++ reset)]).
Proof. vm_compute. repeat apply conj; reflexivity. Qed.

Lemma ensure_dir_subseteq (acc : Fs) (q : Path) : acc ⊆ ensure_dir acc q.
Proof.
  unfold ensure_dir. destruct (acc !! q) eqn:E; [reflexivity|].
  apply insert_subseteq. exact E.
Qed.

Lemma ensure_dirs_subseteq (qs : list Path) (f : Fs) : f ⊆ fold_left ensure_dir qs f.
Proof.
  revert f. induction qs as [|q qs IH]; intros f; [reflexivity|].
  cbn [fold_left]. etransitivity; [apply ensure_dir_subseteq | apply IH].
Qed.



(** Only directories are added. *)
Lemma ensure_dir_new (acc : Fs) (q p : Path) (n : Node) :
  ensure_dir acc q !! p = Some n -> acc !! p = Some n \/ (acc !! p = None /\ n = Dir).
Proof.
  unfold ensure_dir. destruct (acc !! q) eqn:E; [auto|].
  destruct (decide (q = p)) as [->|Hne].
  - rewrite lookup_insert_eq. intros [= <-]. auto.
  - rewrite lookup_insert_ne by exact Hne. auto.
Qed.

Lemma ensure_dirs_new (qs : list Path) (f : Fs) (p : Path) (n : Node) :
  fold_left ensure_dir qs f !! p = Some n -> f !! p = Some n \/ (f !! p = None /\ n = Dir).
Proof.
  revert f. induction qs as [|q qs IH]; intros f; cbn [fold_left]; [auto|].
  intros H. destruct (IH _ H) as [H1|[H1 ->]].
  - exact (ensure_dir_new _ _ _ _ H1).
  - right. split; [|reflexivity].
    destruct (f !! p) eqn:E; [|reflexivity].
    pose proof (lookup_weaken _ _ _ _ E (ensure_dir_subseteq f q)). congruence.
Qed.

Lemma is_file_after (f f' : Fs) (q : Path) :
  f ⊆ f' -> (forall p n, f' !! p = Some n -> f !! p = Some n \/ (f !! p = None /\ n = Dir)) ->
  is_file f' q = is_file f q.
Proof.
  intros Hsub Hnew. unfold is_file.
  destruct (f' !! q) as [n|] eqn:E'.
  - destruct (Hnew _ _ E') as [->|[-> ->]]; reflexivity.
  - destruct (f !! q) as [n|] eqn:E; [|reflexivity].
    pose proof (lookup_weaken _ _ _ _ E Hsub). congruence.
Qed.



Lemma grows_refl (f : Fs) : grows f f.
Proof. split; [reflexivity | auto]. Qed.

Lemma grows_trans (f1 f2 f3 : Fs) : grows f1 f2 -> grows f2 f3 -> grows f1 f3.
Proof.
  intros [S1 N1] [S2 N2]. split; [etransitivity; eassumption|].
  intros q n H3. destruct (N2 _ _ H3) as [H2|[H2 ->]].
  - apply N1, H2.
  - right. split; [|reflexivity].
    destruct (f1 !! q) eqn:E; [|reflexivity].
    pose proof (lookup_weaken _ _ _ _ E S1). congruence.
Qed.

Lemma mkdirSync_recursive_grows (p : Path) (f f' : Fs) :
  mkdirSync_recursive p f = inr f' -> grows f f'.
Proof.
  unfold mkdirSync_recursive.
  destruct (List.find (is_file f) (ancestors p)); [discriminate|].
  intros [= <-]. split; [apply ensure_dirs_subseteq | intros q n; apply ensure_dirs_new].
Qed.

Lemma is_file_grows (f f' : Fs) (q : Path) : grows f f' -> is_file f' q = is_file f q.
Proof. intros [S N]. apply is_file_after; assumption. Qed.

Lemma existsSync_grows (f f' : Fs) (p : Path) :
  grows f f' -> existsSync p f = true -> existsSync p f' = true.
Proof.
  intros [S _]. unfold existsSync. destruct (f !! p) as [n|] eqn:E; [|discriminate].
  rewrite (lookup_weaken _ _ _ _ E S). reflexivity.
Qed.

(** The loop over the directories never touches anything but the file
    system and the output. *)
Lemma create_dirs_frame (dirs : list Path) (st : Sys) :
  let st' := snd (create_dirs dirs st) in
  grows (fs st) (fs st') /\ ran st' = ran st /\
  exit_code st' = exit_code st /\ closed st' = closed st.
Proof.
  cbv zeta. revert st. induction dirs as [|d dirs IH]; intros st.
  - cbn. refine (conj (grows_refl _) (conj eq_refl (conj eq_refl eq_refl))).
  - cbn [create_dirs]. destruct (existsSync d (fs st)); cbn [negb]; [apply IH|].
    destruct (mkdirSync_recursive d (fs st)) as [fault|f'] eqn:Em.
    + cbn. refine (conj (grows_refl _) (conj eq_refl (conj eq_refl eq_refl))).
    + destruct (IH (console_log (green ++ "Created directory: " ++ join d ++ reset)
                      (with_fs f' st))) as (G & R & X & C).
      refine (conj _ (conj R (conj X C))).
      eapply grows_trans; [exact (mkdirSync_recursive_grows _ _ _ Em) | exact G].
Qed.




Lemma find_none_all {A} (P : A -> bool) (l : list A) :
  List.find P l = None -> Forall (fun x => P x = false) l.
Proof.
  induction l as [|x l IH]; cbn [List.find]; [constructor|].
  destruct (P x) eqn:E; [discriminate|]. intros H. constructor; auto.
Qed.

Lemma all_find_none {A} (P : A -> bool) (l : list A) :
  Forall (fun x => P x = false) l -> List.find P l = None.
Proof.
  induction 1 as [|x l Hx _ IH]; cbn [List.find]; [reflexivity|]. rewrite Hx. exact IH.
Qed.

Lemma existsSync_before (f f' : Fs) (p : Path) :
  grows f f' -> existsSync p f' = false -> existsSync p f = false.
Proof.
  intros G H. destruct (existsSync p f) eqn:E; [|reflexivity].
  rewrite (existsSync_grows _ _ _ G E) in H. discriminate.
Qed.

Lemma not_there_not_a_file (f : Fs) (p : Path) : existsSync p f = false -> is_file f p = false.
Proof. unfold existsSync, is_file. destruct (f !! p); [discriminate | reflexivity]. Qed.

(** A fault of the loop, told in terms of the file system [f0] the loop
    started from. *)
Lemma create_dirs_fault (dirs : list Path) (f0 : Fs) (st : Sys) :
  grows f0 (fs st) ->
  match fst (create_dirs dirs st) with
  | None => True
  | Some fault =>
      exists d q, fault = NotADirectory d /\ In d dirs /\ In q (ancestors d) /\
                  q <> d /\ is_file f0 q = true /\ existsSync d f0 = false
  end.
Proof.
  revert st. induction dirs as [|d dirs IH]; intros st G; [exact I|].
  cbn [create_dirs]. destruct (existsSync d (fs st)) eqn:Ex; cbn [negb].
  - specialize (IH st G). destruct (fst (create_dirs dirs st)); [|exact I].
    destruct IH as (d' & q & -> & Hin & Hq & Hne & Hf & Hx). exists d', q.
    repeat apply conj; auto using in_cons.
  - destruct (mkdirSync_recursive d (fs st)) as [fault|f'] eqn:Em.
    + cbn. unfold mkdirSync_recursive in Em.
      destruct (List.find (is_file (fs st)) (ancestors d)) as [q|] eqn:Ef; [|discriminate].
      injection Em as <-. apply List.find_some in Ef as [Hin Hf].
      exists d, q. rewrite (is_file_grows _ _ q G) in Hf.
      repeat apply conj; auto using in_eq.
      * intros ->. rewrite <- (is_file_grows _ _ d G) in Hf.
        rewrite (not_there_not_a_file _ _ Ex) in Hf. discriminate.
      * exact (existsSync_before _ _ _ G Ex).
    + set (st1 := console_log _ _).
      assert (grows f0 (fs st1)) as G1.
      { eapply grows_trans; [exact G | exact (mkdirSync_recursive_grows _ _ _ Em)]. }
      specialize (IH st1 G1).
      destruct (fst (create_dirs dirs st1)); [|exact I].
      destruct IH as (d' & q & -> & Hin & Hq & Hne & Hf & Hx). exists d', q.
      repeat apply conj; auto using in_cons.
Qed.

(** The loop goes through when every directory is there already, as
    whatever it is, or has no file on its way. *)
Lemma create_dirs_clear (dirs : list Path) (f0 : Fs) (st : Sys) :
  grows f0 (fs st) ->
  Forall (fun d => existsSync d f0 = true \/
                   Forall (fun q => is_file f0 q = false) (ancestors d)) dirs ->
  fst (create_dirs dirs st) = None.
Proof.
  revert st. induction dirs as [|d dirs IH]; intros st G Hall; [reflexivity|].
  pose proof (List.Forall_inv Hall) as Hd. apply List.Forall_inv_tail in Hall.
  cbn [create_dirs]. destruct (existsSync d (fs st)) eqn:Ex; cbn [negb]; [apply IH; assumption|].
  destruct Hd as [Hd|Hd].
  { rewrite (existsSync_grows _ _ _ G Hd) in Ex. discriminate. }
  unfold mkdirSync_recursive. rewrite all_find_none.
  - apply IH; [|exact Hall]. cbn. eapply grows_trans; [exact G|].
    split; [apply ensure_dirs_subseteq | intros q n; apply ensure_dirs_new].
  - eapply Forall_impl; [exact Hd|]. intros q Hq. cbv beta in *.
    rewrite (is_file_grows _ _ q G). exact Hq.
Qed.

(** X14. In a file system without permission or I/O errors,
    [createDataDirs] throws only on a directory of its list that does not
    exist yet and has a regular file at a proper prefix of its path, in
    the file system as it was before the call; the fault names the
    directory it was asked to create.  A directory of the list that
    exists already, be it as a file, is skipped: when each of the four is
    there already or has no file on its way, the call goes through. *)
Theorem createDataDirs_fails_on_a_file_only (st : Sys) :
  match fst (createDataDirs st) with
  | None => True
  | Some fault =>
      exists d q, fault = NotADirectory d /\ In d data_dirs /\ In q (ancestors d) /\
                  q <> d /\ is_file (fs st) q = true /\ existsSync d (fs st) = false
  end /\
  (Forall (fun d => existsSync d (fs st) = true \/
                    Forall (fun q => is_file (fs st) q = false) (ancestors d)) data_dirs ->
   fst (createDataDirs st) = None).
Proof.
  split.
  - apply create_dirs_fault, grows_refl.
  - apply create_dirs_clear, grows_refl.
Qed.

(** The theorem above on a tree where a file sits at the full path of one
    directory and nothing stands in the way of the others: the call goes
    through and the file is left as it is. *)
Lemma createDataDirs_skips_a_file_witness :
  fst (createDataDirs (boot file_at_full_path)) = None /\
  fs (snd (createDataDirs (boot file_at_full_path))) !! ["services"; "voice-ai"; "logs"]
    = Some (File "not a directory").
Proof.
  split; [|vm_compute; reflexivity].
  apply (createDataDirs_fails_on_a_file_only (boot file_at_full_path)).
  repeat constructor; first [ left; vm_compute; reflexivity | right; repeat constructor ].
Defined.

Example createDataDirs_blocked :
  fst (createDataDirs (boot blocked_fs))
  = Some (NotADirectory ["services"; "document-parser"; "data"; "documents"]).
Proof. vm_compute. reflexivity. Qed.

Lemma runCommand_frame (command : string) (st : Sys) :
  let st' := snd (runCommand os command st) in
  ran st' = (ran st ++ [command])%list /\
  exit_code st' = exit_code st /\ closed st' = closed st.
Proof.
  cbv zeta. unfold runCommand. cbn.
  destruct (shell os command (fs st)) as [[|] f']; cbn; auto.
Qed.

Lemma prefix_append (s t : string) : String.prefix s (s ++ t) = true.
Proof.
  induction s as [|c s IH]; [destruct t; reflexivity|].
  change ((if Ascii.ascii_dec c c then String.prefix s (s ++ t) else false) = true).
  destruct (Ascii.ascii_dec c c); [exact IH | congruence].
Qed.

Lemma pip_command_shape (service : string) :
  is_pip_of_service ("pip install -r " ++ join ["services"; service; "requirements.txt"]) = true.
Proof.
  change ("pip install -r " ++ join ["services"; service; "requirements.txt"])
    with ("pip install -r services/" ++ (service ++ "/requirements.txt")).
  apply prefix_append.
Qed.

Lemma install_services_frame (services : list string) (st : Sys) :
  let st' := install_services os services st in
  exists pips,
    ran st' = (ran st ++ pips)%list /\
    Forall (fun c => is_pip_of_service c = true) pips /\
    length pips <= length services /\
    exit_code st' = exit_code st /\ closed st' = closed st.
Proof.
  cbv zeta. revert st. induction services as [|service services IH]; intros st.
  - exists []. cbn. rewrite app_nil_r. repeat apply conj; auto; lia.
  - cbn [install_services].
    destruct (existsSync ["services"; service; "requirements.txt"] (fs st)).
    + set (st1 := console_log _ st).
      destruct (runCommand_frame
                  ("pip install -r " ++ join ["services"; service; "requirements.txt"]) st1)
        as (R1 & X1 & C1).
      destruct (IH (snd (runCommand os
                  ("pip install -r " ++ join ["services"; service; "requirements.txt"]) st1)))
        as (pips & R & F & L & X & C).
      exists (("pip install -r " ++ join ["services"; service; "requirements.txt"]) :: pips).
      repeat apply conj.
      * rewrite R, R1. subst st1. cbn. rewrite <- app_assoc. reflexivity.
      * constructor; [apply pip_command_shape | exact F].
      * cbn [length]. lia.
      * rewrite X, X1. reflexivity.
      * rewrite C, C1. reflexivity.
    + destruct (IH st) as (pips & R & F & L & X & C).
      exists pips. repeat apply conj; auto; cbn [length]; lia.
Qed.

Lemma closing_frame (lines : list string) (st : Sys) :
  let st' := fold_left (fun acc line => console_log line acc) lines st in
  out st' = (out st ++ List.map (pair Stdout) lines)%list /\
  ran st' = ran st /\ exit_code st' = exit_code st /\ fs st' = fs st.
Proof.
  cbv zeta. revert st. induction lines as [|l lines IH]; intros st.
  - cbn. rewrite app_nil_r. auto.
  - cbn [fold_left List.map]. destruct (IH (console_log l st)) as (O & R & X & F).
    rewrite O, R, X, F. cbn. rewrite <- app_assoc. auto.
Qed.

(** X15. When the data directories cannot be created, [setup] ends the
    process with code 1 after closing the prompt, its last line on the
    error stream being the fault; no command has been run and no question
    asked, and nothing that was in the file system has been lost. *)
Theorem setup_fails_before_any_command
    (installPython startDocker : string) (st : Sys) (fault : FsFault) :
  fst (createDataDirs (snd (copyEnvFile os st))) = Some fault ->
  let st' := setup os installPython startDocker st in
  exit_code st' = Some 1%Z /\ closed st' = true /\
  ran st' = ran st /\
  fs st ⊆ fs st' /\
  last (out st') = Some (Stderr, yellow ++ "Setup failed: " ++ fault_message os fault ++ reset).
Proof.
  intros H. cbv zeta. unfold setup.
  destruct (copyEnvFile_frame st) as (S0 & R0 & _).
  pose proof (create_dirs_frame data_dirs (snd (copyEnvFile os st))) as (G1 & R1 & _ & _).
  fold (createDataDirs (snd (copyEnvFile os st))) in G1, R1.
  destruct (createDataDirs (snd (copyEnvFile os st))) as [[fault'|] st2] eqn:E;
    cbn [fst snd] in *; [|discriminate].
  injection H as ->. cbn.
  refine (conj eq_refl (conj eq_refl (conj _ (conj _ _)))).
  - congruence.
  - etransitivity; [exact S0 | apply G1].
  - apply last_snoc.
Qed.

(** X16. Once the data directories are there, [setup] cannot fail: it
    asks its two questions, closes the prompt, leaves the exit code
    alone and ends its output with the six closing lines, the first of
    them [Setup completed successfully!], whether the commands succeeded
    or not.  The commands it has run are [npm install] first; then, if
    the first answer is a yes, the [pip] installation of the shared
    requirements and of at most three services; then, if the second
    answer is a yes, [docker-compose]; and no other. *)
Theorem setup_reports_success_whatever_commands_do
    (installPython startDocker : string) (st : Sys) :
  fst (createDataDirs (snd (copyEnvFile os st))) = None ->
  let st' := setup os installPython startDocker st in
  exit_code st' = exit_code st /\ closed st' = true /\
  (exists before, out st' = (before ++ List.map (pair Stdout) closing_lines)%list) /\
  (exists pips,
     ran st' = (ran st ++ commands_for installPython startDocker pips)%list /\
     Forall (fun c => is_pip_of_service c = true) pips /\
     length pips <= 3).
Proof.
  intros H. cbv zeta. unfold setup.
  destruct (copyEnvFile_frame st) as (_ & R0 & X0).
  pose proof (create_dirs_frame data_dirs (snd (copyEnvFile os st))) as (_ & R1 & X1 & _).
  fold (createDataDirs (snd (copyEnvFile os st))) in R1, X1.
  destruct (createDataDirs (snd (copyEnvFile os st))) as [[fault|] st2] eqn:E;
    cbn [fst snd] in *; [discriminate|].
  set (st3 := console_log _ st2).
  pose proof (runCommand_frame "npm install" st3) as (R4 & X4 & _).
  destruct (runCommand os "npm install" st3) as [ok st4]. cbn [snd] in R4, X4.
  set (st5 := if ok then console_log _ st4 else st4).
  assert (ran st5 = ran st4 /\ exit_code st5 = exit_code st4) as [R5 X5].
  { subst st5. destruct ok; split; reflexivity. }
  set (st6 := prompt _ st5).
  set (st7 := if says_yes installPython then _ else st6).
  assert (exists pips,
            ran st7 = (ran st6 ++ (if says_yes installPython
                                   then "pip install -r requirements.txt" :: pips else []))%list /\
            Forall (fun c => is_pip_of_service c = true) pips /\ length pips <= 3 /\
            exit_code st7 = exit_code st6) as (pips & R7 & F7 & L7 & X7).
  { subst st7. destruct (says_yes installPython).
    - set (a := console_log _ st6).
      pose proof (runCommand_frame "pip install -r requirements.txt" a) as (Rb & Xb & _).
      destruct (install_services_frame python_services
                  (snd (runCommand os "pip install -r requirements.txt" a)))
        as (pips & Rs & Fs & Ls & Xs & _).
      exists pips. repeat apply conj; [ | exact Fs | exact Ls | ].
      + rewrite Rs, Rb. subst a. cbn. rewrite <- app_assoc. reflexivity.
      + rewrite Xs, Xb. reflexivity.
    - exists []. rewrite app_nil_r. repeat apply conj; auto; cbn; lia. }
  set (st8 := prompt _ st7).
  set (st9 := if says_yes startDocker then _ else st8).
  assert (ran st9 = (ran st8 ++ (if says_yes startDocker then [docker_command] else []))%list /\
          exit_code st9 = exit_code st8) as [R9 X9].
  { subst st9. destruct (says_yes startDocker).
    - set (a := console_log _ st8).
      pose proof (runCommand_frame docker_command a) as (Rb & Xb & _).
      split; [exact Rb | exact Xb].
    - rewrite app_nil_r. split; reflexivity. }
  destruct (closing_frame closing_lines st9) as (Oc & Rc & Xc & _).
  cbn [exit_code closed ran out rl_close].
  refine (conj _ (conj eq_refl (conj _ _))).
  - rewrite Xc, X9. subst st8. cbn. rewrite X7. subst st6. cbn.
    rewrite X5, X4. subst st3. cbn. congruence.
  - eexists. exact Oc.
  - exists pips. refine (conj _ (conj F7 L7)).
    rewrite Rc, R9. subst st8. cbn. rewrite R7. subst st6. cbn.
    rewrite R5, R4. subst st3. cbn. rewrite R1, R0.
    unfold commands_for. rewrite <- !app_assoc. reflexivity.
Qed.

Lemma ensure_dir_well_formed (f : Fs) (above : Path) (seg : string) :
  well_formed f ->
  (above <> [] -> f !! above = Some Dir) ->
  is_file f (above ++ [seg])%list = false ->
  well_formed (ensure_dir f (above ++ [seg])%list) /\
  ensure_dir f (above ++ [seg])%list !! (above ++ [seg])%list = Some Dir.
Proof.
  intros Hwf Habove Hfile. unfold ensure_dir, is_file in *.
  destruct (f !! (above ++ [seg])%list) as [n|] eqn:E.
  - split; [exact Hwf|]. rewrite E. destruct n; [discriminate | reflexivity].
  - split; [|apply lookup_insert_eq].
    intros p n Hp Hparent.
    destruct (decide ((above ++ [seg])%list = p)) as [<-|Hne].
    + unfold parent in *. rewrite List.removelast_last in *.
      rewrite lookup_insert_ne; [apply Habove, Hparent|].
      intros Heq. apply (f_equal length) in Heq. rewrite length_app in Heq. cbn in Heq. lia.
    + rewrite lookup_insert_ne in Hp by exact Hne.
      pose proof (Hwf p n Hp Hparent) as Hd.
      rewrite lookup_insert_ne; [exact Hd|]. intros Heq. congruence.
Qed.

Lemma ensure_dirs_well_formed (rest above : Path) (f : Fs) :
  well_formed f ->
  (above <> [] -> f !! above = Some Dir) ->
  Forall (fun q => is_file f q = false) (ancestors_from above rest) ->
  well_formed (fold_left ensure_dir (ancestors_from above rest) f).
Proof.
  revert above f. induction rest as [|seg rest IH]; intros above f Hwf Habove Hfiles;
    [exact Hwf|].
  cbn [ancestors_from fold_left] in *.
  pose proof (List.Forall_inv Hfiles) as Hq. apply List.Forall_inv_tail in Hfiles.
  destruct (ensure_dir_well_formed f above seg Hwf Habove Hq) as [Hwf1 Hdir].
  apply IH; [exact Hwf1 | intros _; exact Hdir |].
  eapply Forall_impl; [exact Hfiles|]. intros q Hf. cbv beta in *.
  rewrite <- Hf. apply is_file_after.
  - apply ensure_dir_subseteq.
  - intros p n. apply ensure_dir_new.
Qed.

Lemma mkdirSync_recursive_well_formed (p : Path) (f f' : Fs) :
  well_formed f -> mkdirSync_recursive p f = inr f' -> well_formed f'.
Proof.
  unfold mkdirSync_recursive. intros Hwf.
  destruct (List.find (is_file f) (ancestors p)) eqn:Ef; [discriminate|].
  intros [= <-]. apply ensure_dirs_well_formed; [exact Hwf | congruence |].
  apply find_none_all, Ef.
Qed.

Lemma create_dirs_well_formed (dirs : list Path) (st : Sys) :
  well_formed (fs st) -> well_formed (fs (snd (create_dirs dirs st))).
Proof.
  revert st. induction dirs as [|d dirs IH]; intros st Hwf; [exact Hwf|].
  cbn [create_dirs]. destruct (existsSync d (fs st)); cbn [negb]; [apply IH, Hwf|].
  destruct (mkdirSync_recursive d (fs st)) as [fault|f'] eqn:Em; [exact Hwf|].
  apply IH. cbn. eapply mkdirSync_recursive_well_formed; eassumption.
Qed.

Lemma copyEnvFile_well_formed (st : Sys) :
  well_formed (fs st) -> well_formed (fs (snd (copyEnvFile os st))).
Proof.
  intros Hwf. unfold copyEnvFile, existsSync, copyFileSync.
  destruct (fs st !! [".env"]) as [n|] eqn:Eenv; cbn [negb]; [exact Hwf|].
  destruct (fs st !! [".env.example"]) as [[content|]|]; cbn; try exact Hwf.
  intros p n Hp Hparent. destruct (decide ([".env"] = p)) as [<-|Hne].
  - cbn in Hparent. congruence.
  - rewrite lookup_insert_ne in Hp by exact Hne.
    pose proof (Hwf p n Hp Hparent) as Hd.
    rewrite lookup_insert_ne; [exact Hd | congruence].
Qed.

(** X17. The file operations of the script keep the tree a tree: if
    every entry lies in a directory before [copyEnvFile] and
    [createDataDirs] run, one after the other as in [setup], so it does
    after, whether [createDataDirs] went through or stopped on a fault. *)
Theorem file_operations_keep_the_tree (st : Sys) :
  well_formed (fs st) ->
  well_formed (fs (snd (copyEnvFile os st))) /\
  well_formed (fs (snd (createDataDirs (snd (copyEnvFile os st))))).
Proof.
  intros Hwf. split; [apply copyEnvFile_well_formed, Hwf|].
  apply create_dirs_well_formed, copyEnvFile_well_formed, Hwf.
Qed.

End Files.

Lemma sample_fs_well_formed : well_formed sample_fs.
Proof.
  intros p n Hp Hparent. unfold sample_fs in *.
  destruct (decide (p = [".env.example"])) as [->|N1]; [cbn in Hparent; congruence|].
  destruct (decide (p = ["services"])) as [->|N2]; [cbn in Hparent; congruence|].
  destruct (decide (p = ["services"; "voice-ai"])) as [->|N3]; [reflexivity|].
  rewrite !lookup_insert_ne in Hp by congruence.
  rewrite lookup_singleton_ne in Hp by congruence. discriminate.
Qed.

(** The theorem above on the sample tree. *)
Lemma file_operations_keep_the_tree_witness :
  well_formed sample_fs /\
  well_formed (fs (snd (copyEnvFile (idle_os true) (boot sample_fs)))) /\
  well_formed (fs (snd (createDataDirs (snd (copyEnvFile (idle_os true) (boot sample_fs)))))).
Proof.
  split; [exact sample_fs_well_formed|].
  apply (file_operations_keep_the_tree (idle_os true) (boot sample_fs)).
  exact sample_fs_well_formed.
Defined.

(** The theorem above when every command fails and both answers are yes. *)
Lemma setup_reports_success_witness :
  let st' := setup (idle_os false) "yes" "Y" (boot sample_fs) in
  fst (createDataDirs (snd (copyEnvFile (idle_os false) (boot sample_fs)))) = None /\
  exit_code st' = None /\ closed st' = true /\
  (exists before, out st' = (before ++ List.map (pair Stdout) closing_lines)%list) /\
  (exists pips,
     ran st' = ([] ++ commands_for "yes" "Y" pips)%list /\
     Forall (fun c => is_pip_of_service c = true) pips /\
     length pips <= 3).
Proof.
  cbv zeta. split; [vm_compute; reflexivity|].
  apply (setup_reports_success_whatever_commands_do (idle_os false) "yes" "Y" (boot sample_fs)).
  vm_compute. reflexivity.
Defined.

(** The theorem on failure, on a tree where [services] is a file. *)
Lemma setup_fails_before_any_command_witness :
  let st' := setup (idle_os true) "y" "y" (boot blocked_fs) in
  fst (createDataDirs (snd (copyEnvFile (idle_os true) (boot blocked_fs))))
    = Some (NotADirectory ["services"; "document-parser"; "data"; "documents"]) /\
  exit_code st' = Some 1%Z /\ closed st' = true /\
  ran st' = [] /\
  blocked_fs ⊆ fs st' /\
  last (out st') = Some (Stderr, yellow ++ "Setup failed: " ++ "fault" ++ reset).
Proof.
  cbv zeta. split; [vm_compute; reflexivity|].
  apply (setup_fails_before_any_command (idle_os true) "y" "y" (boot blocked_fs)
           (NotADirectory ["services"; "document-parser"; "data"; "documents"])).
  vm_compute. reflexivity.
Defined.

(** With two answers that are not a yes, [npm install] is all that runs. *)
Example setup_two_noes :
  ran (setup (idle_os true) "n" EmptyString (boot sample_fs)) = ["npm install"].
Proof. vm_compute. reflexivity. Qed.

End SetupProofs.
